(** * Diffusion schedulers of refiners: the noise schedule and the DPM-Solver++ step

    Shallow embedding of
      - [src/refiners/foundationals/latent_diffusion/schedulers/scheduler.py]
      - [src/refiners/foundationals/latent_diffusion/schedulers/dpm_solver.py]

    Conventions of the embedding.
      - Python exceptions are values of [exn]; a call that may raise returns
        a [result].  A method that mutates [self] returns the new object
        together with its outcome, so that a raise after a mutation keeps
        the mutation, as in Python.
      - Values of floating tensors are real numbers and tensor arithmetic is
        exact: a schedule array holds the values that its float32 items
        approximate, and a quotient is read where its divisor is not zero.
        Shapes and broadcasting follow torch.
      - Two computations are also modelled in their floating format: the
        timestep grid, which numpy computes in binary64, with the kernel's
        binary64 floats; and the schedule arrays as torch builds them in
        binary32 ([Float32]), where rounding makes them differ in kind from
        their exact values.
      - A Python integer is an integer of any size; torch and numpy take it
        as a 64-bit integer and raise when it does not fit.  Memory is not
        bounded: a count that the libraries accept yields its array.
      - A one-dimensional schedule array is the list of its values. *)

From Stdlib Require Import ZArith List Lia Bool.
From Stdlib Require Import Reals Lra.
From Stdlib Require Import Floats.
Import ListNotations.

(** ** Python: exceptions, indexing, bounded deques *)

Module Py.

Inductive exn : Type :=
| IndexError
| ValueError
| RuntimeError.

(** A Python number: a float, or a complex number, whose value nothing
    reads. *)
Inductive Number : Type :=
| real (r : R)
| complex.

(** The range of a 64-bit integer. *)
Definition int64_min : Z := Eval cbv in (- 2 ^ 63)%Z.
Definition int64_max : Z := Eval cbv in (2 ^ 63 - 1)%Z.

Definition fits_int64 (i : Z) : bool := ((int64_min <=? i) && (i <=? int64_max))%Z.

Inductive result (A : Type) : Type :=
| Ok (a : A)
| Err (e : exn).

Arguments Ok {A} a.
Arguments Err {A} e.

Definition bind {A B : Type} (r : result A) (k : A -> result B) : result B :=
  match r with
  | Ok a => k a
  | Err e => Err e
  end.


(** Position selected by the subscript [i] in a sequence of [len] items:
    a negative subscript counts from the end, anything outside
    [-len, len) raises [IndexError]. *)
Definition position (len : nat) (i : Z) : result nat :=
  if ((0 <=? i) && (i <? Z.of_nat len))%Z then Ok (Z.to_nat i)
  else if ((- Z.of_nat len <=? i) && (i <? 0))%Z then Ok (Z.to_nat (Z.of_nat len + i))
  else Err IndexError.

(** [l[i]]. *)
Definition getitem {A : Type} (l : list A) (i : Z) : result A :=
  match position (length l) i with
  | Ok n =>
      match nth_error l n with
      | Some a => Ok a
      | None => Err IndexError
      end
  | Err e => Err e
  end.

(** [collections.deque(..., maxlen)]: appending to a full deque drops items
    from the left end. *)
Definition deque_append {A : Type} (maxlen : nat) (d : list A) (x : A) : list A :=
  let d' := d ++ [x] in
  skipn (length d' - maxlen) d'.

(** [for] over a list of fallible computations. *)
Fixpoint mapM {A B : Type} (f : A -> result B) (l : list A) : result (list B) :=
  match l with
  | [] => Ok []
  | a :: l' =>
      match f a with
      | Ok b =>
          match mapM f l' with
          | Ok bs => Ok (b :: bs)
          | Err e => Err e
          end
      | Err e => Err e
      end
  end.

End Py.

Import Py.

Declare Scope result_scope.
Delimit Scope result_scope with result.
Notation "x <- e ;; k" := (Py.bind e (fun x => k))
  (at level 61, e at next level, right associativity) : result_scope.
Open Scope result_scope.

(** ** numpy: the binary64 grid of [linspace], [round], [astype(int)] *)

Module Numpy.

(** [float(z)]: the binary64 value nearest to the integer [z]; the
    kernel's conversion computes it for an integer of at most 63 bits. *)
Definition float_of_Z (z : Z) : float :=
  if ((0 <=? z) && (z <=? int64_max))%Z then PrimFloat.of_uint63 (Uint63.of_Z z)
  else SF2Prim (binary_normalize prec emax z 0 false).

(** [numpy.arange(start, start + n)]: [n] consecutive integers. *)
Fixpoint arange (n : nat) (start : Z) : list Z :=
  match n with
  | O => []
  | S n' => start :: arange n' (start + 1)%Z
  end.

(** [numpy.linspace(start, stop, num)] with the default [endpoint=True]:
    [arange(0, num) * step + start] with [step = (stop - start) / (num - 1)]
    (when the step is zero, [arange(0, num) / (num - 1) * delta + start];
    with fewer than two samples, [arange(0, num) * delta + start]), the
    last item overwritten with [stop]; a negative [num] raises
    [ValueError], and so does [arange] for a [num] beyond the 64-bit
    integers. *)
Definition linspace (start stop : float) (num : Z) : result (list float) :=
  if (num <? 0)%Z then Err ValueError
  else if (int64_max <? num)%Z then Err ValueError
  else
    let div := (num - 1)%Z in
    let delta := (stop - start)%float in
    let step := (delta / float_of_Z div)%float in
    let scaled (i : float) : float :=
      if (0 <? div)%Z then
        if (step =? 0)%float then (i / float_of_Z div * delta)%float
        else (i * step)%float
      else (i * delta)%float in
    let y :=
      map (fun i => (scaled (float_of_Z i) + start)%float)
          (arange (Z.to_nat num) 0) in
    Ok (if (1 <? num)%Z then removelast y ++ [stop] else y).

(** Nearest integer to [m * 2^e], ties to the even integer: for a negative
    [e], the quotient [q] of [m] by [2^(-e)] or its successor, as the
    remainder [r] compares to the half [2^(-e-1)]. *)
Definition rint_pos (m : positive) (e : Z) : Z :=
  if (0 <=? e)%Z then Z.shiftl (Z.pos m) e
  else
    let q := Z.shiftr (Z.pos m) (- e) in
    let r := Z.land (Z.pos m) (Z.ones (- e)) in
    match (r ?= Z.shiftl 1 (- e - 1))%Z with
    | Lt => q
    | Gt => (q + 1)%Z
    | Eq => if Z.even q then q else (q + 1)%Z
    end.

(** The conversion of an integral value to a 64-bit integer: a value out of
    range becomes the least integer. *)
Definition to_int64 (z : Z) : Z := if fits_int64 z then z else int64_min.

(** [a.round().astype(int)] on one item: round half to even, then the
    conversion to a 64-bit integer, which also maps a non-finite value to
    the least integer. *)
Definition round_astype_int (f : float) : Z :=
  match Prim2SF f with
  | S754_zero _ => 0%Z
  | S754_finite s m e => to_int64 (if s then (- rint_pos m e)%Z else rint_pos m e)
  | S754_infinity _ | S754_nan => int64_min
  end.

End Numpy.

(** ** torch: tensors, broadcasting, elementwise arithmetic *)

Module Torch.

Open Scope R_scope.

(** A [torch.device]: a kind of device with an optional index. *)
Inductive DeviceType : Type :=
| CPU
| CUDA
| MPS.

Record Device : Type := mkDevice { device_type : DeviceType; device_index : option nat }.

Module Devices.
(** ["cpu"], the default device of the constructors. *)
Definition cpu : Device := mkDevice CPU None.
End Devices.

(** The [device] argument of a constructor, a [torch.device] or a string:
    either it denotes a device, or it is a string that names none. *)
Inductive DeviceArgument : Type :=
| denotes (d : Device)
| names_no_device.

Coercion denotes : Device >-> DeviceArgument.

(** [torch.device(arg)]: a string that names no device raises
    [RuntimeError]. *)
Definition device_of (arg : DeviceArgument) : result Device :=
  match arg with
  | denotes d => Ok d
  | names_no_device => Err RuntimeError
  end.

(** A Python integer passed to torch is unpacked into a 64-bit integer;
    one that does not fit raises [ValueError]. *)
Definition unpack_long (i : Z) : result Z :=
  if fits_int64 i then Ok i else Err ValueError.

Inductive DType : Type :=
| float16
| bfloat16
| float32
| float64.

(** A floating tensor: its shape and its values in row-major order. *)
Record Tensor : Type := mkTensor { shape : list nat; data : list R }.

(** An integer tensor, as used for subscripts. *)
Record IntTensor : Type := mkIntTensor { ishape : list nat; idata : list Z }.

Definition numel (s : list nat) : nat := fold_right Nat.mul 1%nat s.

(** A tensor whose values fill its shape. *)
Definition well_shaped (a : Tensor) : Prop := length (data a) = numel (shape a).

(** The shape of a tensor with a single value spread over [k]
    dimensions: [[]], [[1]], [[1; 1]], ... *)
Definition ones (k : nat) : list nat := repeat 1%nat k.

(** [tensor([])]. *)
Definition empty : Tensor := mkTensor [0%nat] [].

(** Broadcast of two shapes, innermost dimension first. *)
Fixpoint broadcast_rev (a b : list nat) : result (list nat) :=
  match a, b with
  | [], _ => Ok b
  | _, [] => Ok a
  | x :: a', y :: b' =>
      if (x =? y)%nat then r <- broadcast_rev a' b' ;; Ok (x :: r)
      else if (x =? 1)%nat then r <- broadcast_rev a' b' ;; Ok (y :: r)
      else if (y =? 1)%nat then r <- broadcast_rev a' b' ;; Ok (x :: r)
      else Err RuntimeError
  end.

(** [torch.broadcast_shapes]: shapes are aligned on the right; two sizes
    are compatible when equal or when one of them is 1. *)
Definition broadcast_shapes (a b : list nat) : result (list nat) :=
  r <- broadcast_rev (rev a) (rev b) ;; Ok (rev r).

(** Left-pad a shape with 1s up to [n] dimensions. *)
Definition pad_shape (n : nat) (s : list nat) : list nat :=
  repeat 1%nat (n - length s) ++ s.

(** Cut [l] in [n] consecutive pieces of [k] items. *)
Fixpoint chunks (n k : nat) (l : list R) : list (list R) :=
  match n with
  | O => []
  | S n' => firstn k l :: chunks n' k (skipn k l)
  end.

(** Values of a tensor of shape [from] once expanded to shape [to_]
    (same number of dimensions; a dimension of size 1 is repeated). *)
Fixpoint expand (from to_ : list nat) (l : list R) : list R :=
  match from, to_ with
  | d :: ds, r :: rs =>
      let parts := concat (map (expand ds rs) (chunks d (numel ds) l)) in
      if (d =? r)%nat then parts else concat (repeat parts r)
  | _, _ => l
  end.

Definition map2 {A B C : Type} (f : A -> B -> C) (l1 : list A) (l2 : list B) : list C :=
  map (fun p => f (fst p) (snd p)) (combine l1 l2).

(** A binary elementwise operator between tensors; incompatible shapes
    raise [RuntimeError]. *)
Definition binop (f : R -> R -> R) (a b : Tensor) : result Tensor :=
  s <- broadcast_shapes (shape a) (shape b) ;;
  Ok (mkTensor s
        (map2 f
           (expand (pad_shape (length s) (shape a)) s (data a))
           (expand (pad_shape (length s) (shape b)) s (data b)))).

Definition add : Tensor -> Tensor -> result Tensor := binop Rplus.
Definition sub : Tensor -> Tensor -> result Tensor := binop Rminus.
Definition mul : Tensor -> Tensor -> result Tensor := binop Rmult.
Definition div : Tensor -> Tensor -> result Tensor := binop Rdiv.

(** A unary elementwise operator, and the operators with a Python number. *)
Definition unop (f : R -> R) (a : Tensor) : Tensor :=
  mkTensor (shape a) (map f (data a)).

Definition neg : Tensor -> Tensor := unop Ropp.
Definition exp : Tensor -> Tensor := unop Rtrigo_def.exp.
Definition sub_scalar (a : Tensor) (c : R) : Tensor := unop (fun v => v - c) a.
Definition scalar_mul (c : R) (a : Tensor) : Tensor := unop (fun v => c * v) a.

(** [a.unsqueeze(-1)]. *)
Definition unsqueeze_last (a : Tensor) : Tensor :=
  mkTensor (shape a ++ [1%nat]) (data a).

(** [a[i]] for a one-dimensional integer tensor [a] and a Python integer
    [i]: a zero-dimensional integer tensor.  The subscript is unpacked
    before it is checked against the size. *)
Definition select (a : list Z) (i : Z) : result IntTensor :=
  i <- unpack_long i ;; v <- getitem a i ;; Ok (mkIntTensor [] [v]).

(** [a[idx]] for a one-dimensional tensor [a] and an integer tensor [idx]:
    a tensor with the shape of [idx]. *)
Definition index (a : list R) (idx : IntTensor) : result Tensor :=
  vs <- mapM (getitem a) (idata idx) ;; Ok (mkTensor (ishape idx) vs).

(** [torch.linspace(start, end, steps, dtype=dtype)] for a floating
    [dtype]: [steps] is unpacked, a negative [steps] raises [RuntimeError]
    and so does a complex end point, which cannot be cast to the floating
    format; a single step yields [start]. *)
Definition linspace (start end_ : Number) (steps : Z) : result (list R) :=
  steps <- unpack_long steps ;;
  if (steps <? 0)%Z then Err RuntimeError
  else
    match start, end_ with
    | real a, real b =>
        if (steps =? 1)%Z then Ok [a]
        else
          Ok (map (fun i => a + INR i * ((b - a) / IZR (steps - 1)))
                  (seq 0 (Z.to_nat steps)))
    | _, _ => Err RuntimeError
    end.

Fixpoint cumprod_from (acc : R) (l : list R) : list R :=
  match l with
  | [] => []
  | a :: l' => acc * a :: cumprod_from (acc * a) l'
  end.

(** [a.cumprod(dim=0)]. *)
Definition cumprod (l : list R) : list R :=
  match l with
  | [] => []
  | a :: l' => a :: cumprod_from a l'
  end.

End Torch.

Import Torch.

(** ** [Scheduler] (scheduler.py) *)

Module Scheduler.

Open Scope R_scope.

Record t : Type := mk {
  device : Device;
  dtype : DType;
  num_inference_steps : Z;
  num_train_timesteps : Z;
  initial_diffusion_rate : R;
  final_diffusion_rate : R;
  scale_factors : list R;
  cumulative_scale_factors : list R;
  noise_std : list R;
  signal_to_noise_ratios : list R;
  timesteps : list Z
}.

(** [r ** 0.5] on a Python float: the square root of a non-negative [r],
    a complex number for a negative one. *)
Definition pow_half (r : R) : Number :=
  if Rlt_dec r 0 then complex else real (R_sqrt.sqrt r).

(** [Scheduler.__init__]; the abstract method [_generate_timesteps] is the
    parameter [generate_timesteps], which reads [num_train_timesteps],
    [num_inference_steps] and [device] from the object under
    construction. *)
Definition init (generate_timesteps : Z -> Z -> Device -> result (list Z))
    (num_inference_steps num_train_timesteps : Z)
    (initial_diffusion_rate final_diffusion_rate : R)
    (device : DeviceArgument) (dtype : DType) : result t :=
  device <- device_of device ;;
  betas <- Torch.linspace (pow_half initial_diffusion_rate)
                          (pow_half final_diffusion_rate)
                          num_train_timesteps ;;
  let scale_factors := map (fun b => 1 - b ^ 2) betas in
  let cumulative_scale_factors := map R_sqrt.sqrt (cumprod scale_factors) in
  let noise_std := map (fun p => R_sqrt.sqrt (1 - p)) (cumprod scale_factors) in
  let signal_to_noise_ratios :=
    map2 Rminus (map ln cumulative_scale_factors) (map ln noise_std) in
  timesteps <- generate_timesteps num_train_timesteps num_inference_steps device ;;
  Ok (mk device dtype num_inference_steps num_train_timesteps
         initial_diffusion_rate final_diffusion_rate
         scale_factors cumulative_scale_factors noise_std
         signal_to_noise_ratios timesteps).

(** [Scheduler.steps]: [list(range(num_inference_steps))]. *)
Definition steps (self : t) : list Z :=
  map Z.of_nat (seq 0 (Z.to_nat (num_inference_steps self))).

(** [Scheduler.add_noise]; the object is returned with the outcome. *)
Definition add_noise (self : t) (x noise : Tensor) (step : Z) : t * result Tensor :=
  (self,
   timestep <- select (timesteps self) step ;;
   c <- index (cumulative_scale_factors self) timestep ;;
   let cumulative_scale_factors := unsqueeze_last (unsqueeze_last c) in
   n <- index (noise_std self) timestep ;;
   let noise_stds := unsqueeze_last (unsqueeze_last n) in
   scaled_x <- mul cumulative_scale_factors x ;;
   scaled_noise <- mul noise_stds noise ;;
   add scaled_x scaled_noise).

(** [tensor.to(device, dtype=dtype)] on the values of a floating tensor:
    [cast] is the rounding of a value to a floating format. *)
Definition convert (cast : DType -> R -> R) (dtype : option DType) (a : list R) : list R :=
  match dtype with
  | Some d => map (cast d) a
  | None => a
  end.

(** [Scheduler.to], for a [device] that, when given, denotes a device;
    moving an integer tensor to a device keeps its values. *)
Definition to (cast : DType -> R -> R) (self : t)
    (device : option Device) (dtype : option DType) : t :=
  let self1 :=
    match device with
    | Some d =>
        mk d (Scheduler.dtype self) (num_inference_steps self) (num_train_timesteps self)
           (initial_diffusion_rate self) (final_diffusion_rate self)
           (scale_factors self) (cumulative_scale_factors self) (noise_std self)
           (signal_to_noise_ratios self) (timesteps self)
    | None => self
    end in
  let dtype2 :=
    match dtype with
    | Some d => d
    | None => Scheduler.dtype self1
    end in
  mk (Scheduler.device self1) dtype2
     (num_inference_steps self1) (num_train_timesteps self1)
     (initial_diffusion_rate self1) (final_diffusion_rate self1)
     (convert cast dtype (scale_factors self1))
     (convert cast dtype (cumulative_scale_factors self1))
     (convert cast dtype (noise_std self1))
     (convert cast dtype (signal_to_noise_ratios self1))
     (timesteps self1).

End Scheduler.

(** ** The schedule arrays in binary32

    The arrays of [Scheduler.__init__] as torch computes them on the CPU
    for [dtype=float32]: every operation rounds its exact result to the
    nearest binary32 value, ties to even. *)

Module Float32.

(** A binary32 value: a sign, a mantissa below [2^24] and an exponent. *)
Definition t : Type := spec_float.

Definition round (s : bool) (m : positive) (e : Z) : t :=
  binary_normalize 24 128 (cond_Zopp s (Z.pos m)) e s.

(** The cast of a binary64 value to binary32. *)
Definition of_float (x : float) : t :=
  match Prim2SF x with
  | S754_finite s m e => round s m e
  | other => other
  end.

(** A binary32 value as the binary64 value equal to it. *)
Definition to_float (x : t) : float :=
  match x with
  | S754_finite s m e => SF2Prim (binary_normalize prec emax (cond_Zopp s (Z.pos m)) e s)
  | other => SF2Prim other
  end.

(** The cast of a 64-bit integer to binary32. *)
Definition of_Z (z : Z) : t := binary_normalize 24 128 z 0 false.

Definition add : t -> t -> t := SFadd 24 128.
Definition sub : t -> t -> t := SFsub 24 128.
Definition mul : t -> t -> t := SFmul 24 128.
Definition div : t -> t -> t := SFdiv 24 128.
Definition sqrt : t -> t := SFsqrt 24 128.

Definition one : t := of_Z 1.

(** [r ** 0.5] on a non-negative Python float: its binary64 square root. *)
Definition pow_half (r : float) : float := PrimFloat.sqrt r.

(** [torch.linspace(start, end, steps, dtype=float32)] for [steps >= 0]:
    the end points are cast to binary32, the step is their difference
    divided by [steps - 1], and the item at the index [i] is
    [start + step * i] in the first half, [end - step * (steps - i - 1)]
    in the second; a single step yields [start]. *)
Definition linspace (start end_ : float) (steps : Z) : list t :=
  let a := of_float start in
  let b := of_float end_ in
  if (steps =? 1)%Z then [a]
  else
    let step := div (sub b a) (of_Z (steps - 1)) in
    let halfway := (steps / 2)%Z in
    map (fun i =>
           if (i <? halfway)%Z then add a (mul step (of_Z i))
           else sub b (mul step (of_Z (steps - i - 1))))
        (Numpy.arange (Z.to_nat steps) 0).

(** [a.cumprod(dim=0)]: the running product is kept in binary64, as torch
    does on the CPU, when [wide] is set, and in binary32 otherwise; each
    item is the running product in binary32. *)
Fixpoint cumprod_wide (acc : float) (l : list t) : list t :=
  match l with
  | [] => []
  | a :: l' =>
      let acc' := (acc * to_float a)%float in
      of_float acc' :: cumprod_wide acc' l'
  end.

Fixpoint cumprod_narrow (acc : t) (l : list t) : list t :=
  match l with
  | [] => []
  | a :: l' =>
      let acc' := mul acc a in
      acc' :: cumprod_narrow acc' l'
  end.

Definition cumprod (wide : bool) (l : list t) : list t :=
  if wide then cumprod_wide 1%float l else cumprod_narrow one l.

(** [scale_factors], [cumulative_scale_factors] and [noise_std] of
    [Scheduler.__init__] for non-negative rates. *)
Definition scale_factors (initial_diffusion_rate final_diffusion_rate : float)
    (num_train_timesteps : Z) : list t :=
  map (fun b => sub one (mul b b))
      (linspace (pow_half initial_diffusion_rate) (pow_half final_diffusion_rate)
                num_train_timesteps).

Definition cumulative_scale_factors (wide : bool)
    (initial_diffusion_rate final_diffusion_rate : float)
    (num_train_timesteps : Z) : list t :=
  map sqrt
      (cumprod wide (scale_factors initial_diffusion_rate final_diffusion_rate
                       num_train_timesteps)).

Definition noise_std (wide : bool)
    (initial_diffusion_rate final_diffusion_rate : float)
    (num_train_timesteps : Z) : list t :=
  map (fun p => sqrt (sub one p))
      (cumprod wide (scale_factors initial_diffusion_rate final_diffusion_rate
                       num_train_timesteps)).

End Float32.

(** ** [DPMSolver] (dpm_solver.py) *)

Module DPMSolver.

Open Scope R_scope.

Import Scheduler.

Record t : Type := mk {
  base : Scheduler.t;
  estimated_data : list Tensor;
  initial_steps : Z
}.

(** [DPMSolver._generate_timesteps]. *)
Definition _generate_timesteps (num_train_timesteps num_inference_steps : Z)
    (device : Device) : result (list Z) :=
  grid <- Numpy.linspace (Numpy.float_of_Z 0)
                         (Numpy.float_of_Z (num_train_timesteps - 1))
                         (num_inference_steps + 1) ;;
  Ok (rev (tl (map Numpy.round_astype_int grid))).

(** [DPMSolver.__init__]. *)
Definition init (num_inference_steps num_train_timesteps : Z)
    (initial_diffusion_rate final_diffusion_rate : R) (device : DeviceArgument) : result t :=
  s <- Scheduler.init _generate_timesteps num_inference_steps num_train_timesteps
         initial_diffusion_rate final_diffusion_rate device float32 ;;
  Ok (mk s [Torch.empty; Torch.empty] 0).

(** [len(self.timesteps)]. *)
Definition len_timesteps (self : t) : Z := Z.of_nat (length (timesteps (base self))).

(** [DPMSolver.dpm_solver_first_order_update]. *)
Definition dpm_solver_first_order_update (self : t) (x noise : Tensor) (step : Z)
    : result Tensor :=
  timestep <- select (timesteps (base self)) step ;;
  previous_timestep <-
    select (timesteps (base self))
           (if (step <? len_timesteps self - 1)%Z then (step + 1)%Z else 0%Z) ;;
  previous_ratio <- index (signal_to_noise_ratios (base self)) previous_timestep ;;
  current_ratio <- index (signal_to_noise_ratios (base self)) timestep ;;
  previous_scale_factor <- index (cumulative_scale_factors (base self)) previous_timestep ;;
  previous_noise_std <- index (noise_std (base self)) previous_timestep ;;
  current_noise_std <- index (noise_std (base self)) timestep ;;
  ratio_delta <- sub previous_ratio current_ratio ;;
  let exp_factor := Torch.exp (neg ratio_delta) in
  std_ratio <- div previous_noise_std current_noise_std ;;
  scaled_x <- mul std_ratio x ;;
  coefficient <- mul previous_scale_factor (sub_scalar exp_factor 1) ;;
  scaled_noise <- mul coefficient noise ;;
  sub scaled_x scaled_noise.

(** The three timesteps read by the second-order update:
    (previous, current, next). *)
Definition second_order_timesteps (self : t) (step : Z)
    : result (IntTensor * IntTensor * IntTensor) :=
  previous_timestep <-
    (if (step <? len_timesteps self - 1)%Z
     then select (timesteps (base self)) (step + 1)
     else Ok (mkIntTensor [1%nat] [0%Z])) ;;
  current_timestep <- select (timesteps (base self)) step ;;
  next_timestep <- select (timesteps (base self)) (step - 1) ;;
  Ok (previous_timestep, current_timestep, next_timestep).

(** [DPMSolver.multistep_dpm_solver_second_order_update]. *)
Definition multistep_dpm_solver_second_order_update (self : t) (x : Tensor) (step : Z)
    : result Tensor :=
  ts <- second_order_timesteps self step ;;
  let '(previous_timestep, current_timestep, next_timestep) := ts in
  current_data_estimation <- getitem (estimated_data self) (-1) ;;
  next_data_estimation <- getitem (estimated_data self) (-2) ;;
  previous_ratio <- index (signal_to_noise_ratios (base self)) previous_timestep ;;
  current_ratio <- index (signal_to_noise_ratios (base self)) current_timestep ;;
  next_ratio <- index (signal_to_noise_ratios (base self)) next_timestep ;;
  previous_scale_factor <- index (cumulative_scale_factors (base self)) previous_timestep ;;
  previous_std <- index (noise_std (base self)) previous_timestep ;;
  current_std <- index (noise_std (base self)) current_timestep ;;
  data_delta <- sub current_data_estimation next_data_estimation ;;
  ratio_up <- sub current_ratio next_ratio ;;
  ratio_down <- sub previous_ratio current_ratio ;;
  ratio <- div ratio_up ratio_down ;;
  estimation_delta <- div data_delta ratio ;;
  ratio_delta <- sub previous_ratio current_ratio ;;
  let exp_neg_factor := Torch.exp (neg ratio_delta) in
  std_ratio <- div previous_std current_std ;;
  scaled_x <- mul std_ratio x ;;
  coefficient <- mul previous_scale_factor (sub_scalar exp_neg_factor 1) ;;
  first_term <- mul coefficient current_data_estimation ;;
  partial <- sub scaled_x first_term ;;
  coefficient' <- mul previous_scale_factor (sub_scalar exp_neg_factor 1) ;;
  second_term <- mul (scalar_mul 0.5 coefficient') estimation_delta ;;
  sub partial second_term.

(** The data estimate of [__call__]:
    [(x - noise_ratio * noise) / scale_factor] at [timesteps[step]]. *)
Definition estimate_denoised_data (self : t) (x noise : Tensor) (step : Z)
    : result Tensor :=
  current_timestep <- select (timesteps (base self)) step ;;
  scale_factor <- index (cumulative_scale_factors (base self)) current_timestep ;;
  noise_ratio <- index (noise_std (base self)) current_timestep ;;
  scaled_noise <- mul noise_ratio noise ;;
  numerator <- sub x scaled_noise ;;
  div numerator scale_factor.

(** The test of [__call__] that selects the first-order update. *)
Definition takes_first_order (self : t) : bool := (initial_steps self =? 0)%Z.

(** [DPMSolver.__call__]: the solver after the call and the outcome.  A
    raise before the append leaves the solver as it was; a raise inside an
    update keeps the appended estimate and does not count the step. *)
Definition call (self : t) (x noise : Tensor) (step : Z) : t * result Tensor :=
  match estimate_denoised_data self x noise step with
  | Err e => (self, Err e)
  | Ok estimated_denoised_data =>
      let self1 :=
        mk (base self)
           (deque_append 2 (estimated_data self) estimated_denoised_data)
           (initial_steps self) in
      let denoised_x :=
        if takes_first_order self1
        then dpm_solver_first_order_update self1 x estimated_denoised_data step
        else multistep_dpm_solver_second_order_update self1 x step in
      match denoised_x with
      | Err e => (self1, Err e)
      | Ok r =>
          let self2 :=
            if (initial_steps self1 <? 2)%Z
            then mk (base self1) (estimated_data self1) (initial_steps self1 + 1)
            else self1 in
          (self2, Ok r)
      end
  end.

(** A run of calls on one solver: the solver seen by each call with the
    outcome of that call, and the solver left at the end. *)
Fixpoint run (self : t) (calls : list (Tensor * Tensor * Z))
    : list (t * result Tensor) * t :=
  match calls with
  | [] => ([], self)
  | (x, noise, step) :: calls' =>
      let (self', r) := call self x noise step in
      let (trace, final) := run self' calls' in
      ((self, r) :: trace, final)
  end.

End DPMSolver.

(** * Vocabulary of the properties *)

(** [a[t]] for a timestep [t] within the array. *)
Definition at_timestep (a : list R) (t : Z) : R := nth (Z.to_nat t) a 0%R.

(** [timesteps[i]] for a position [i] within the sequence. *)
Definition timestep_at (ts : list Z) (i : Z) : Z := nth (Z.to_nat i) ts 0%Z.

(** Every timestep is a position of the schedule arrays. *)
Definition timesteps_within (T : Z) (ts : list Z) : Prop :=
  Forall (fun t => (0 <= t < T)%Z) ts.

(** [data_estimate = (x - noise_std[t] * noise_prediction) / cumulative_scale_factor[t]]. *)
Definition data_estimate_value (s : Scheduler.t) (t : Z) (x noise : R) : R :=
  ((x - at_timestep (Scheduler.noise_std s) t * noise)
   / at_timestep (Scheduler.cumulative_scale_factors s) t)%R.

(** The first-order formula with coefficients at [prev] and [cur]. *)
Definition first_order_value (s : Scheduler.t) (prev cur : Z) (x d : R) : R :=
  let h :=
    Rtrigo_def.exp (- (at_timestep (Scheduler.signal_to_noise_ratios s) prev
                       - at_timestep (Scheduler.signal_to_noise_ratios s) cur)) in
  (at_timestep (Scheduler.noise_std s) prev / at_timestep (Scheduler.noise_std s) cur * x
   - at_timestep (Scheduler.cumulative_scale_factors s) prev * (h - 1) * d)%R.

(** The second-order formula with coefficients at [prev], [cur] and [next]. *)
Definition second_order_value (s : Scheduler.t) (prev cur next : Z) (x d_cur d_next : R) : R :=
  let log_snr := at_timestep (Scheduler.signal_to_noise_ratios s) in
  let ratio := ((log_snr cur - log_snr next) / (log_snr prev - log_snr cur))%R in
  let d_delta := ((d_cur - d_next) / ratio)%R in
  let h := Rtrigo_def.exp (- (log_snr prev - log_snr cur)) in
  (at_timestep (Scheduler.noise_std s) prev / at_timestep (Scheduler.noise_std s) cur * x
   - at_timestep (Scheduler.cumulative_scale_factors s) prev * (h - 1) * d_cur
   - 0.5 * (at_timestep (Scheduler.cumulative_scale_factors s) prev * (h - 1)) * d_delta)%R.

(** What [DPMSolver.__init__] leaves in a solver it returns. *)
Record constructed (N T : Z) (i0 f0 : R) (dev : Device) (solver : DPMSolver.t) : Prop := {
  constructed_steps : Scheduler.num_inference_steps (DPMSolver.base solver) = N;
  constructed_train : Scheduler.num_train_timesteps (DPMSolver.base solver) = T;
  constructed_scale :
    exists betas,
      Torch.linspace (Scheduler.pow_half i0) (Scheduler.pow_half f0) T = Ok betas /\
      Scheduler.scale_factors (DPMSolver.base solver) = map (fun b => (1 - b ^ 2)%R) betas;
  constructed_cumulative :
    Scheduler.cumulative_scale_factors (DPMSolver.base solver)
    = map R_sqrt.sqrt (cumprod (Scheduler.scale_factors (DPMSolver.base solver)));
  constructed_noise :
    Scheduler.noise_std (DPMSolver.base solver)
    = map (fun p => R_sqrt.sqrt (1 - p)) (cumprod (Scheduler.scale_factors (DPMSolver.base solver)));
  constructed_ratios :
    Scheduler.signal_to_noise_ratios (DPMSolver.base solver)
    = map2 Rminus (map ln (Scheduler.cumulative_scale_factors (DPMSolver.base solver)))
                  (map ln (Scheduler.noise_std (DPMSolver.base solver)));
  constructed_timesteps :
    DPMSolver._generate_timesteps T N dev = Ok (Scheduler.timesteps (DPMSolver.base solver));
  constructed_history : DPMSolver.estimated_data solver = [Torch.empty; Torch.empty];
  constructed_counter : DPMSolver.initial_steps solver = 0%Z
}.

(** The solver once the estimate [est] is appended to its history. *)
Definition appended (self : DPMSolver.t) (est : Tensor) : DPMSolver.t :=
  DPMSolver.mk (DPMSolver.base self)
    (deque_append 2 (DPMSolver.estimated_data self) est)
    (DPMSolver.initial_steps self).

(** The solver once the step is counted. *)
Definition counted (self : DPMSolver.t) : DPMSolver.t :=
  if (DPMSolver.initial_steps self <? 2)%Z
  then DPMSolver.mk (DPMSolver.base self) (DPMSolver.estimated_data self)
         (DPMSolver.initial_steps self + 1)
  else self.

(** The update selected by the counter. *)
Definition selected_update (self : DPMSolver.t) (x est : Tensor) (step : Z) : result Tensor :=
  if DPMSolver.takes_first_order self
  then DPMSolver.dpm_solver_first_order_update self x est step
  else DPMSolver.multistep_dpm_solver_second_order_update self x step.

(** The three ways out of a call. *)
Inductive call_outcome (self : DPMSolver.t) (x noise : Tensor) (step : Z)
    : DPMSolver.t * result Tensor -> Prop :=
| raised_before_append (e : exn) :
    DPMSolver.estimate_denoised_data self x noise step = Err e ->
    call_outcome self x noise step (self, Err e)
| raised_in_update (est : Tensor) (e : exn) :
    DPMSolver.estimate_denoised_data self x noise step = Ok est ->
    selected_update (appended self est) x est step = Err e ->
    call_outcome self x noise step (appended self est, Err e)
| returned (est r : Tensor) :
    DPMSolver.estimate_denoised_data self x noise step = Ok est ->
    selected_update (appended self est) x est step = Ok r ->
    call_outcome self x noise step (counted (appended self est), Ok r).



(** Each item is greater than the one after it. *)
Fixpoint strictly_descending (l : list Z) : bool :=
  match l with
  | a :: (b :: _) as rest => (b <? a)%Z && strictly_descending rest
  | _ => true
  end.



(** A sample of two values and a noise prediction for it, position by
    position, and three calls with them on a solver of two sampling
    steps. *)
Definition demo_layout : list (R * R) := [(1, 0); (2, 1)]%R.

Definition demo_x : Tensor := mkTensor [2%nat] (map fst demo_layout).
Definition demo_noise : Tensor := mkTensor [2%nat] (map snd demo_layout).


(** * Properties *)

(** ** Python indexing *)

Lemma position_in_range (len : nat) (i : Z) :
  (0 <= i < Z.of_nat len)%Z -> position len i = Ok (Z.to_nat i).
Proof.
  intros H. unfold position.
  destruct (Z.leb_spec 0 i); destruct (Z.ltb_spec i (Z.of_nat len)); try lia.
  reflexivity.
Qed.

Lemma position_negative (len : nat) (i : Z) :
  (- Z.of_nat len <= i < 0)%Z -> position len i = position len (i + Z.of_nat len).
Proof.
  intros H. rewrite (position_in_range len (i + Z.of_nat len)) by lia.
  unfold position.
  destruct (Z.leb_spec 0 i); try lia. cbn [andb].
  destruct (Z.leb_spec (- Z.of_nat len) i); destruct (Z.ltb_spec i 0); try lia.
  cbn [andb]. f_equal. f_equal. lia.
Qed.

Lemma position_out_of_range (len : nat) (i : Z) :
  (i < - Z.of_nat len \/ Z.of_nat len <= i)%Z -> position len i = Err IndexError.
Proof.
  intros H. unfold position.
  destruct (Z.leb_spec 0 i); destruct (Z.ltb_spec i (Z.of_nat len));
    destruct (Z.leb_spec (- Z.of_nat len) i); destruct (Z.ltb_spec i 0);
    try lia; reflexivity.
Qed.

Lemma getitem_in_range {A : Type} (l : list A) (i : Z) (d : A) :
  (0 <= i < Z.of_nat (length l))%Z -> getitem l i = Ok (nth (Z.to_nat i) l d).
Proof.
  intros H. unfold getitem. rewrite position_in_range by assumption.
  rewrite (nth_error_nth' l d) by lia. reflexivity.
Qed.

Lemma getitem_negative {A : Type} (l : list A) (i : Z) :
  (- Z.of_nat (length l) <= i < 0)%Z -> getitem l i = getitem l (i + Z.of_nat (length l)).
Proof.
  intros H. unfold getitem. rewrite position_negative by assumption. reflexivity.
Qed.

Lemma getitem_out_of_range {A : Type} (l : list A) (i : Z) :
  (i < - Z.of_nat (length l) \/ Z.of_nat (length l) <= i)%Z -> getitem l i = Err IndexError.
Proof.
  intros H. unfold getitem. rewrite position_out_of_range by assumption. reflexivity.
Qed.

Lemma getitem_error {A : Type} (l : list A) (i : Z) (e : exn) :
  getitem l i = Err e -> e = IndexError.
Proof.
  unfold getitem, position.
  destruct ((0 <=? i) && (i <? Z.of_nat (length l)))%Z.
  - destruct (nth_error l (Z.to_nat i)); congruence.
  - destruct ((- Z.of_nat (length l) <=? i) && (i <? 0))%Z.
    + destruct (nth_error l _); congruence.
    + congruence.
Qed.

(** ** 64-bit integers *)

Ltac int64 := unfold fits_int64, int64_min, int64_max in *.

Lemma fits_int64_spec (i : Z) :
  fits_int64 i = true <-> (int64_min <= i <= int64_max)%Z.
Proof. unfold fits_int64. rewrite andb_true_iff, Z.leb_le, Z.leb_le. reflexivity. Qed.

Lemma unpack_long_fits (i : Z) :
  (int64_min <= i <= int64_max)%Z -> Torch.unpack_long i = Ok i.
Proof.
  intros H. unfold Torch.unpack_long. apply fits_int64_spec in H. rewrite H. reflexivity.
Qed.

Lemma unpack_long_overflow (i : Z) :
  (i < int64_min \/ int64_max < i)%Z -> Torch.unpack_long i = Err ValueError.
Proof.
  intros H. unfold Torch.unpack_long.
  destruct (fits_int64 i) eqn:E; [|reflexivity].
  apply fits_int64_spec in E. lia.
Qed.

(** A subscript raises [ValueError] when it does not fit a 64-bit integer,
    whatever the sequence. *)
Lemma select_overflow (ts : list Z) (i : Z) :
  (i < int64_min \/ int64_max < i)%Z -> Torch.select ts i = Err ValueError.
Proof. intros H. unfold Torch.select. rewrite unpack_long_overflow by exact H. reflexivity. Qed.

Lemma select_fits (ts : list Z) (i : Z) :
  (int64_min <= i <= int64_max)%Z ->
  Torch.select ts i = (v <- getitem ts i ;; Ok (Torch.mkIntTensor [] [v])).
Proof. intros H. unfold Torch.select. rewrite unpack_long_fits by exact H. reflexivity. Qed.

Lemma getitem_last_of_two {A : Type} (a b : A) : getitem [a; b] (-1) = Ok b.
Proof. reflexivity. Qed.

Lemma getitem_first_of_two {A : Type} (a b : A) : getitem [a; b] (-2) = Ok a.
Proof. reflexivity. Qed.

Lemma deque_append_full {A : Type} (a b x : A) :
  deque_append 2 [a; b] x = [b; x].
Proof. reflexivity. Qed.


(** ** Broadcasting *)

Section Broadcasting.

Import Torch.

Lemma rev_ones (k : nat) : rev (ones k) = ones k.
Proof.
  unfold ones. induction k as [|k IH]; [reflexivity|].
  cbn [repeat rev]. rewrite IH. symmetry. apply (repeat_cons k 1%nat).
Qed.

Lemma numel_ones (k : nat) : numel (ones k) = 1%nat.
Proof.
  induction k as [|k IH]; [reflexivity|].
  change (numel (ones (S k))) with (1 * numel (ones k))%nat. rewrite IH. reflexivity.
Qed.

Lemma broadcast_rev_same (s : list nat) : broadcast_rev s s = Ok s.
Proof.
  induction s as [|x s IH]; [reflexivity|].
  cbn. rewrite Nat.eqb_refl, IH. reflexivity.
Qed.

Lemma broadcast_rev_ones_l (k : nat) (s : list nat) :
  (k <= length s)%nat -> broadcast_rev (ones k) s = Ok s.
Proof.
  revert s. induction k as [|k IH]; intros s H.
  - destruct s; reflexivity.
  - destruct s as [|y s]; [cbn in H; lia|].
    cbn in H. unfold ones. cbn [repeat broadcast_rev]. fold (ones k).
    rewrite IH by lia. cbn [Py.bind].
    destruct (Nat.eqb_spec 1 y) as [<-|]; [reflexivity|].
    rewrite Nat.eqb_refl. reflexivity.
Qed.

Lemma broadcast_rev_ones_r (k : nat) (s : list nat) :
  (k <= length s)%nat -> broadcast_rev s (ones k) = Ok s.
Proof.
  revert s. induction k as [|k IH]; intros s H.
  - destruct s; reflexivity.
  - destruct s as [|x s]; [cbn in H; lia|].
    cbn in H. unfold ones. cbn [repeat broadcast_rev]. fold (ones k).
    rewrite IH by lia. cbn [Py.bind].
    destruct (Nat.eqb_spec x 1) as [->|]; [reflexivity|].
    rewrite Nat.eqb_refl. reflexivity.
Qed.

Lemma broadcast_shapes_same (s : list nat) : broadcast_shapes s s = Ok s.
Proof. unfold broadcast_shapes. rewrite broadcast_rev_same. cbn. rewrite rev_involutive. reflexivity. Qed.

Lemma broadcast_shapes_ones_l (k : nat) (s : list nat) :
  (k <= length s)%nat -> broadcast_shapes (ones k) s = Ok s.
Proof.
  intros H. unfold broadcast_shapes. rewrite rev_ones.
  rewrite broadcast_rev_ones_l by (rewrite length_rev; exact H).
  cbn. rewrite rev_involutive. reflexivity.
Qed.

Lemma broadcast_shapes_ones_r (k : nat) (s : list nat) :
  (k <= length s)%nat -> broadcast_shapes s (ones k) = Ok s.
Proof.
  intros H. unfold broadcast_shapes. rewrite rev_ones.
  rewrite broadcast_rev_ones_r by (rewrite length_rev; exact H).
  cbn. rewrite rev_involutive. reflexivity.
Qed.

Lemma length_ones (k : nat) : length (ones k) = k.
Proof. apply repeat_length. Qed.

Lemma pad_shape_same (s : list nat) : pad_shape (length s) s = s.
Proof. unfold pad_shape. rewrite Nat.sub_diag. reflexivity. Qed.

Lemma pad_shape_ones (n k : nat) : (k <= n)%nat -> pad_shape n (ones k) = ones n.
Proof.
  intros H. unfold pad_shape, ones. rewrite repeat_length, <- repeat_app.
  f_equal. lia.
Qed.

Lemma concat_chunks (n k : nat) (l : list R) :
  length l = (n * k)%nat -> concat (chunks n k l) = l.
Proof.
  revert l. induction n as [|n IH]; intros l H.
  - destruct l; [reflexivity|discriminate].
  - cbn [chunks concat]. rewrite IH.
    + apply firstn_skipn.
    + rewrite length_skipn. cbn in H. lia.
Qed.

Lemma chunks_length_each (n k : nat) (l : list R) :
  length l = (n * k)%nat -> Forall (fun c => length c = k) (chunks n k l).
Proof.
  revert l. induction n as [|n IH]; intros l H; cbn [chunks]; constructor.
  - rewrite length_firstn. cbn in H. lia.
  - apply IH. rewrite length_skipn. cbn in H. lia.
Qed.

Lemma expand_same (s : list nat) (l : list R) :
  length l = numel s -> expand s s l = l.
Proof.
  revert l. induction s as [|d s IH]; intros l H; [reflexivity|].
  cbn [expand]. rewrite Nat.eqb_refl. cbn in H.
  pose proof (chunks_length_each d (numel s) l H) as Hc.
  rewrite <- (concat_chunks d (numel s) l H) at 2.
  f_equal.
  induction Hc as [|c cs Hlen _ IHc]; [reflexivity|].
  cbn [map]. rewrite IH by exact Hlen. f_equal. exact IHc.
Qed.

Lemma concat_repeat_repeat (c : R) (m r : nat) :
  concat (repeat (repeat c m) r) = repeat c (r * m).
Proof.
  induction r as [|r IH]; [reflexivity|].
  cbn [repeat concat]. rewrite IH, <- repeat_app. reflexivity.
Qed.

Lemma expand_ones (s : list nat) (c : R) :
  expand (ones (length s)) s [c] = repeat c (numel s).
Proof.
  induction s as [|r s IH]; [reflexivity|].
  cbn [length ones repeat expand]. change (repeat 1%nat (length s)) with (ones (length s)).
  rewrite numel_ones. cbn [chunks firstn map concat]. rewrite IH, app_nil_r.
  cbn [numel fold_right]. change (fold_right Nat.mul 1%nat s) with (numel s).
  destruct (Nat.eqb_spec 1 r) as [<-|_].
  - cbn. rewrite Nat.add_0_r. reflexivity.
  - apply concat_repeat_repeat.
Qed.

Lemma map2_repeat_l {A B C : Type} (f : A -> B -> C) (c : A) (l : list B) :
  map2 f (repeat c (length l)) l = map (f c) l.
Proof. unfold map2. induction l as [|b l IH]; [reflexivity|]. cbn. f_equal. exact IH. Qed.

Lemma map2_repeat_r {A B C : Type} (f : A -> B -> C) (l : list A) (c : B) :
  map2 f l (repeat c (length l)) = map (fun a => f a c) l.
Proof. unfold map2. induction l as [|a l IH]; [reflexivity|]. cbn. f_equal. exact IH. Qed.

(** A single value against a tensor: the operator is applied to every
    value of the tensor, whose shape is kept. *)
Lemma binop_scalar_l (f : R -> R -> R) (k : nat) (c : R) (x : Tensor) :
  (k <= length (shape x))%nat -> well_shaped x ->
  binop f (mkTensor (ones k) [c]) x = Ok (mkTensor (shape x) (map (f c) (data x))).
Proof.
  intros Hk Hx. unfold binop. cbn [shape data].
  rewrite broadcast_shapes_ones_l by exact Hk. cbn [Py.bind].
  rewrite pad_shape_ones by exact Hk. rewrite pad_shape_same.
  rewrite expand_ones, expand_same by exact Hx.
  rewrite <- Hx, map2_repeat_l. reflexivity.
Qed.

Lemma binop_scalar_r (f : R -> R -> R) (k : nat) (c : R) (x : Tensor) :
  (k <= length (shape x))%nat -> well_shaped x ->
  binop f x (mkTensor (ones k) [c]) = Ok (mkTensor (shape x) (map (fun v => f v c) (data x))).
Proof.
  intros Hk Hx. unfold binop. cbn [shape data].
  rewrite broadcast_shapes_ones_r by exact Hk. cbn [Py.bind].
  rewrite pad_shape_ones by exact Hk. rewrite pad_shape_same.
  rewrite expand_ones, expand_same by exact Hx.
  rewrite <- Hx, map2_repeat_r. reflexivity.
Qed.

(** Two tensors of one shape: the operator is applied value by value. *)
Lemma binop_same_shape (f : R -> R -> R) (a b : Tensor) :
  shape a = shape b -> well_shaped a -> well_shaped b ->
  binop f a b = Ok (mkTensor (shape a) (map2 f (data a) (data b))).
Proof.
  intros Hs Ha Hb. unfold binop. rewrite <- Hs.
  rewrite broadcast_shapes_same. cbn [Py.bind].
  rewrite pad_shape_same, !expand_same; [reflexivity| |exact Ha].
  rewrite Hs. exact Hb.
Qed.

(** Two single values. *)
Lemma binop_scalars (f : R -> R -> R) (j k : nat) (c d : R) :
  binop f (mkTensor (ones j) [c]) (mkTensor (ones k) [d])
  = Ok (mkTensor (ones (Nat.max j k)) [f c d]).
Proof.
  destruct (Nat.le_ge_cases j k) as [H|H].
  - rewrite binop_scalar_l.
    + cbn [shape data map]. rewrite Nat.max_r by exact H. reflexivity.
    + cbn [shape]. rewrite length_ones. exact H.
    + unfold well_shaped. cbn [shape data]. rewrite numel_ones. reflexivity.
  - rewrite binop_scalar_r.
    + cbn [shape data map]. rewrite Nat.max_l by exact H. reflexivity.
    + cbn [shape]. rewrite length_ones. exact H.
    + unfold well_shaped. cbn [shape data]. rewrite numel_ones. reflexivity.
Qed.

End Broadcasting.

(** ** Tensor arithmetic on values laid out over a common list

    In the update formulas every tensor of the sample's shape has its
    values computed from the same positions of the inputs: its data is
    [map G l] for the list [l] of the input values at each position. *)

Section Pointwise.

Import Torch.

Variable P : Type.
Variable sh : list nat.
Variable l : list P.
Hypothesis l_fills : length l = numel sh.

Lemma binop_single_l (f : R -> R -> R) (k : nat) (c : R) (G : P -> R) :
  (k <= length sh)%nat ->
  binop f (mkTensor (ones k) [c]) (mkTensor sh (map G l))
  = Ok (mkTensor sh (map (fun p => f c (G p)) l)).
Proof.
  intros Hk. rewrite binop_scalar_l.
  - cbn [shape data]. rewrite map_map. reflexivity.
  - exact Hk.
  - unfold well_shaped. cbn [shape data]. rewrite length_map. exact l_fills.
Qed.

Lemma binop_single_r (f : R -> R -> R) (k : nat) (c : R) (G : P -> R) :
  (k <= length sh)%nat ->
  binop f (mkTensor sh (map G l)) (mkTensor (ones k) [c])
  = Ok (mkTensor sh (map (fun p => f (G p) c) l)).
Proof.
  intros Hk. rewrite binop_scalar_r.
  - cbn [shape data]. rewrite map_map. reflexivity.
  - exact Hk.
  - unfold well_shaped. cbn [shape data]. rewrite length_map. exact l_fills.
Qed.

Lemma map2_map_map {A B C : Type} (f : A -> B -> C) (G : P -> A) (H : P -> B) (m : list P) :
  map2 f (map G m) (map H m) = map (fun p => f (G p) (H p)) m.
Proof. unfold map2. induction m as [|p m IH]; [reflexivity|]. cbn. f_equal. exact IH. Qed.

Lemma binop_pointwise (f : R -> R -> R) (G H : P -> R) :
  binop f (mkTensor sh (map G l)) (mkTensor sh (map H l))
  = Ok (mkTensor sh (map (fun p => f (G p) (H p)) l)).
Proof.
  rewrite binop_same_shape.
  - cbn [shape data]. rewrite map2_map_map. reflexivity.
  - reflexivity.
  - unfold well_shaped. cbn [shape data]. rewrite length_map. exact l_fills.
  - unfold well_shaped. cbn [shape data]. rewrite length_map. exact l_fills.
Qed.

Lemma unop_pointwise (g : R -> R) (G : P -> R) :
  unop g (mkTensor sh (map G l)) = mkTensor sh (map (fun p => g (G p)) l).
Proof. unfold unop. cbn [shape data]. rewrite map_map. reflexivity. Qed.

End Pointwise.

Lemma unop_single (g : R -> R) (s : list nat) (c : R) :
  Torch.unop g (mkTensor s [c]) = mkTensor s [g c].
Proof. reflexivity. Qed.

Lemma combine_fst {A B : Type} (a : list A) (b : list B) :
  length a = length b -> map fst (combine a b) = a.
Proof.
  revert b. induction a as [|x a IH]; intros [|y b] H; try discriminate; [reflexivity|].
  cbn. f_equal. apply IH. cbn in H. lia.
Qed.

Lemma combine_snd {A B : Type} (a : list A) (b : list B) :
  length a = length b -> map snd (combine a b) = b.
Proof.
  revert b. induction a as [|x a IH]; intros [|y b] H; try discriminate; [reflexivity|].
  cbn. f_equal. apply IH. cbn in H. lia.
Qed.

(** Evaluation of a chain of tensor operations whose operands are single
    values or tensors laid out over the list [fills] speaks of. *)
Ltac tensor_steps fills Hk :=
  repeat (first
    [ rewrite binop_scalars
    | rewrite (binop_pointwise _ _ _ fills)
    | rewrite (binop_single_l _ _ _ fills) by first [exact Hk | apply Nat.le_0_l]
    | rewrite (binop_single_r _ _ _ fills) by first [exact Hk | apply Nat.le_0_l]
    | rewrite unop_single
    | progress cbn [Py.bind]
    | rewrite Nat.max_0_r
    | rewrite Nat.max_id
    | progress cbn [Nat.max] ]).

(** ** Subscripts *)

(** A subscript within a sequence of fewer than [2^63] items selects the
    item at its position. *)
Lemma select_in_range (ts : list Z) (i : Z) :
  (Z.of_nat (length ts) <= int64_max)%Z ->
  (0 <= i < Z.of_nat (length ts))%Z ->
  Torch.select ts i = Ok (mkIntTensor (ones 0) [nth (Z.to_nat i) ts 0%Z]).
Proof.
  intros Hfit H. rewrite select_fits by (int64; lia).
  rewrite (getitem_in_range ts i 0%Z H). reflexivity.
Qed.

(** A negative subscript counts from the end of the sequence. *)
Lemma select_negative (ts : list Z) (i : Z) :
  (Z.of_nat (length ts) <= int64_max)%Z ->
  (- Z.of_nat (length ts) <= i < 0)%Z ->
  Torch.select ts i = Torch.select ts (i + Z.of_nat (length ts)).
Proof.
  intros Hfit H. rewrite !select_fits by (int64; lia).
  rewrite getitem_negative by exact H. reflexivity.
Qed.

(** A subscript outside [[-len, len)] raises [IndexError] when it fits a
    64-bit integer, [ValueError] when it does not. *)
Lemma select_out_of_range (ts : list Z) (i : Z) :
  (i < - Z.of_nat (length ts) \/ Z.of_nat (length ts) <= i)%Z ->
  Torch.select ts i = Err (if fits_int64 i then IndexError else ValueError).
Proof.
  intros H. unfold Torch.select, Torch.unpack_long.
  destruct (fits_int64 i); [|reflexivity].
  cbn [Py.bind]. rewrite getitem_out_of_range by exact H. reflexivity.
Qed.

Lemma index_single (a : list R) (s : list nat) (t : Z) :
  (0 <= t < Z.of_nat (length a))%Z ->
  Torch.index a (mkIntTensor s [t]) = Ok (mkTensor s [nth (Z.to_nat t) a 0%R]).
Proof.
  intros H. unfold Torch.index. cbn [idata ishape mapM].
  rewrite (getitem_in_range a t 0%R H). reflexivity.
Qed.

(** ** Construction *)

Lemma pow_half_nonneg (r : R) :
  (0 <= r)%R -> Scheduler.pow_half r = real (R_sqrt.sqrt r).
Proof. intros H. unfold Scheduler.pow_half. destruct (Rlt_dec r 0); [lra|reflexivity]. Qed.


(** [torch.linspace] between two floats, for a number of steps that fits
    and is not negative. *)
Lemma torch_linspace_real (a b : R) (steps : Z) :
  (0 <= steps <= int64_max)%Z ->
  Torch.linspace (real a) (real b) steps
  = Ok (if (steps =? 1)%Z then [a]
        else map (fun i => (a + INR i * ((b - a) / IZR (steps - 1)))%R)
                 (seq 0 (Z.to_nat steps))).
Proof.
  intros H. unfold Torch.linspace. rewrite unpack_long_fits by (int64; lia).
  cbn [Py.bind]. destruct (Z.ltb_spec steps 0); [lia|].
  destruct (steps =? 1)%Z; reflexivity.
Qed.

(** It returns in no other case. *)
Lemma torch_linspace_returns (start end_ : Number) (steps : Z) (l : list R) :
  Torch.linspace start end_ steps = Ok l ->
  (0 <= steps <= int64_max)%Z /\ exists a b, start = real a /\ end_ = real b.
Proof.
  unfold Torch.linspace, Torch.unpack_long.
  destruct (fits_int64 steps) eqn:E; [|discriminate]. cbn [Py.bind].
  apply fits_int64_spec in E.
  destruct (Z.ltb_spec steps 0); [discriminate|].
  destruct start as [a|]; [|discriminate]. destruct end_ as [b|]; [|discriminate].
  intros _. split; [lia|]. exists a, b. split; reflexivity.
Qed.

Lemma torch_linspace_length (start end_ : Number) (steps : Z) (l : list R) :
  Torch.linspace start end_ steps = Ok l -> length l = Z.to_nat steps.
Proof.
  intros H. destruct (torch_linspace_returns _ _ _ _ H) as (Hs & a & b & -> & ->).
  rewrite torch_linspace_real in H by exact Hs. injection H as <-.
  destruct (Z.eqb_spec steps 1) as [->|_].
  - reflexivity.
  - rewrite length_map, length_seq. reflexivity.
Qed.

Lemma cumprod_from_length (acc : R) (l : list R) :
  length (Torch.cumprod_from acc l) = length l.
Proof. revert acc. induction l as [|a l IH]; intros acc; cbn; [reflexivity|]. rewrite IH. reflexivity. Qed.

Lemma cumprod_length (l : list R) : length (Torch.cumprod l) = length l.
Proof. destruct l; cbn; [reflexivity|]. rewrite cumprod_from_length. reflexivity. Qed.

Lemma map2_length {A B C : Type} (f : A -> B -> C) (a : list A) (b : list B) :
  length a = length b -> length (map2 f a b) = length a.
Proof. intros H. unfold map2. rewrite length_map, length_combine. lia. Qed.

Lemma arange_length (n : nat) (start : Z) : length (Numpy.arange n start) = n.
Proof. revert start. induction n as [|n IH]; intros start; cbn; [reflexivity|]. rewrite IH. reflexivity. Qed.

(** [numpy.linspace] returns exactly for a number of samples that is not
    negative and fits a 64-bit integer. *)
Lemma numpy_linspace_returns (a b : float) (num : Z) (l : list float) :
  Numpy.linspace a b num = Ok l -> (0 <= num <= int64_max)%Z.
Proof.
  unfold Numpy.linspace.
  destruct (Z.ltb_spec num 0); [discriminate|].
  destruct (Z.ltb_spec int64_max num); [discriminate|]. intros _. lia.
Qed.


Lemma numpy_linspace_length (a b : float) (num : Z) (l : list float) :
  Numpy.linspace a b num = Ok l -> length l = Z.to_nat num.
Proof.
  unfold Numpy.linspace.
  destruct (Z.ltb_spec num 0); [discriminate|].
  destruct (Z.ltb_spec int64_max num); [discriminate|].
  intros [= <-].
  destruct (Z.ltb_spec 1 num).
  - rewrite length_app, removelast_firstn_len, length_firstn, length_map, arange_length.
    cbn [length]. lia.
  - rewrite length_map, arange_length. reflexivity.
Qed.

Lemma generate_timesteps_returns (T N : Z) (dev : Device) (ts : list Z) :
  DPMSolver._generate_timesteps T N dev = Ok ts -> (-1 <= N < int64_max)%Z.
Proof.
  unfold DPMSolver._generate_timesteps.
  destruct (Numpy.linspace _ _ _) as [grid|e] eqn:E; [|discriminate].
  intros _. apply numpy_linspace_returns in E. lia.
Qed.

Lemma generate_timesteps_length (T N : Z) (dev : Device) (ts : list Z) :
  DPMSolver._generate_timesteps T N dev = Ok ts -> length ts = Z.to_nat N.
Proof.
  intros H. pose proof (generate_timesteps_returns _ _ _ _ H) as Hnum. revert H.
  unfold DPMSolver._generate_timesteps.
  destruct (Numpy.linspace _ _ _) as [grid|e] eqn:E; [|discriminate].
  cbn [Py.bind]. intros [= <-].
  apply numpy_linspace_length in E.
  rewrite length_rev. destruct grid as [|g grid]; cbn [tl map length] in *.
  - lia.
  - rewrite length_map. lia.
Qed.

Lemma init_constructed (N T : Z) (i0 f0 : R) (dev : Device) (solver : DPMSolver.t) :
  DPMSolver.init N T i0 f0 dev = Ok solver -> constructed N T i0 f0 dev solver.
Proof.
  unfold DPMSolver.init, Scheduler.init. cbn [Torch.device_of Py.bind].
  destruct (Torch.linspace _ _ _) as [betas|e] eqn:Eb; [|discriminate].
  cbn [Py.bind].
  destruct (DPMSolver._generate_timesteps T N dev) as [ts|e] eqn:Et; [|discriminate].
  cbn [Py.bind]. intros [= <-].
  constructor; cbn; try reflexivity.
  - exists betas. split; [exact Eb|reflexivity].
  - exact Et.
Qed.

Lemma constructed_lengths (N T : Z) (i0 f0 : R) (dev : Device) (solver : DPMSolver.t) :
  constructed N T i0 f0 dev solver ->
  let s := DPMSolver.base solver in
  length (Scheduler.scale_factors s) = Z.to_nat T /\
  length (Scheduler.cumulative_scale_factors s) = Z.to_nat T /\
  length (Scheduler.noise_std s) = Z.to_nat T /\
  length (Scheduler.signal_to_noise_ratios s) = Z.to_nat T /\
  length (Scheduler.timesteps s) = Z.to_nat N.
Proof.
  intros [_ _ [betas [Hb Hs]] Hc Hn Hr Ht _ _] s. subst s.
  apply torch_linspace_length in Hb. apply generate_timesteps_length in Ht.
  assert (H1 : length (Scheduler.scale_factors (DPMSolver.base solver)) = Z.to_nat T)
    by (rewrite Hs, length_map; exact Hb).
  assert (H2 : length (Scheduler.cumulative_scale_factors (DPMSolver.base solver)) = Z.to_nat T)
    by (rewrite Hc, length_map, cumprod_length; exact H1).
  assert (H3 : length (Scheduler.noise_std (DPMSolver.base solver)) = Z.to_nat T)
    by (rewrite Hn, length_map, cumprod_length; exact H1).
  repeat split; try assumption.
  rewrite Hr, map2_length; rewrite !length_map; congruence.
Qed.

(** The counts of a constructed solver fit 64-bit integers, and so does
    the size of its timestep sequence. *)
Lemma constructed_counts (N T : Z) (i0 f0 : R) (dev : Device) (solver : DPMSolver.t) :
  constructed N T i0 f0 dev solver ->
  (0 <= T <= int64_max)%Z /\ (-1 <= N < int64_max)%Z /\
  (Z.of_nat (length (Scheduler.timesteps (DPMSolver.base solver))) <= int64_max)%Z.
Proof.
  intros Hc. pose proof (constructed_lengths _ _ _ _ _ _ Hc) as (_ & _ & _ & _ & Hlt).
  destruct Hc as [_ _ [betas [Hb _]] _ _ _ Ht _ _].
  apply torch_linspace_returns in Hb. apply generate_timesteps_returns in Ht.
  cbv zeta in Hlt. rewrite Hlt. repeat split; lia.
Qed.

Lemma init_timesteps_fit (N T : Z) (i0 f0 : R) (dev : Device) (solver : DPMSolver.t) :
  DPMSolver.init N T i0 f0 dev = Ok solver ->
  (Z.of_nat (length (Scheduler.timesteps (DPMSolver.base solver))) <= int64_max)%Z.
Proof. intros H. apply (constructed_counts N T i0 f0 dev). apply init_constructed. exact H. Qed.

(** ** The update formulas, value by value *)

Section Formulas.

Import Torch.

Variable solver : DPMSolver.t.
Variable T : Z.

Let s : Scheduler.t := DPMSolver.base solver.

Hypothesis cumulative_length : length (Scheduler.cumulative_scale_factors s) = Z.to_nat T.
Hypothesis noise_length : length (Scheduler.noise_std s) = Z.to_nat T.
Hypothesis ratios_length : length (Scheduler.signal_to_noise_ratios s) = Z.to_nat T.
Hypothesis within : timesteps_within T (Scheduler.timesteps s).
Hypothesis timesteps_fit : (Z.of_nat (length (Scheduler.timesteps s)) <= int64_max)%Z.

Lemma timestep_at_within (i : Z) :
  (0 <= i < Z.of_nat (length (Scheduler.timesteps s)))%Z ->
  (0 <= timestep_at (Scheduler.timesteps s) i < T)%Z.
Proof using within.
  clear cumulative_length noise_length ratios_length timesteps_fit.
  intros H. unfold timesteps_within in within. rewrite Forall_forall in within.
  apply within. apply nth_In. lia.
Qed.

Lemma select_timestep (i : Z) :
  (0 <= i < Z.of_nat (length (Scheduler.timesteps s)))%Z ->
  select (Scheduler.timesteps s) i
  = Ok (mkIntTensor (ones 0) [timestep_at (Scheduler.timesteps s) i]).
Proof using timesteps_fit. apply select_in_range. exact timesteps_fit. Qed.

Lemma index_cumulative (k : list nat) (t : Z) :
  (0 <= t < T)%Z ->
  index (Scheduler.cumulative_scale_factors s) (mkIntTensor k [t])
  = Ok (mkTensor k [at_timestep (Scheduler.cumulative_scale_factors s) t]).
Proof. intros H. apply index_single. rewrite cumulative_length. lia. Qed.

Lemma index_noise (k : list nat) (t : Z) :
  (0 <= t < T)%Z ->
  index (Scheduler.noise_std s) (mkIntTensor k [t])
  = Ok (mkTensor k [at_timestep (Scheduler.noise_std s) t]).
Proof. intros H. apply index_single. rewrite noise_length. lia. Qed.

Lemma index_ratios (k : list nat) (t : Z) :
  (0 <= t < T)%Z ->
  index (Scheduler.signal_to_noise_ratios s) (mkIntTensor k [t])
  = Ok (mkTensor k [at_timestep (Scheduler.signal_to_noise_ratios s) t]).
Proof. intros H. apply index_single. rewrite ratios_length. lia. Qed.

Variable P : Type.
Variable sh : list nat.
Variable l : list P.
Hypothesis l_fills : length l = numel sh.

Lemma estimate_denoised_data_pointwise (Gx Gn : P -> R) (step : Z) :
  (0 <= step < Z.of_nat (length (Scheduler.timesteps s)))%Z ->
  DPMSolver.estimate_denoised_data solver (mkTensor sh (map Gx l)) (mkTensor sh (map Gn l)) step
  = Ok (mkTensor sh
          (map (fun p => data_estimate_value s (timestep_at (Scheduler.timesteps s) step)
                           (Gx p) (Gn p)) l)).
Proof.
  intros Hstep. pose proof (timestep_at_within _ Hstep) as Hcur.
  unfold DPMSolver.estimate_denoised_data. fold s.
  rewrite select_timestep by exact Hstep. cbn [Py.bind].
  rewrite index_cumulative, index_noise by exact Hcur. cbn [Py.bind].
  unfold mul, sub, div.
  rewrite (binop_single_l _ _ _ l_fills) by apply Nat.le_0_l. cbn [Py.bind].
  rewrite (binop_pointwise _ _ _ l_fills). cbn [Py.bind].
  rewrite (binop_single_r _ _ _ l_fills) by apply Nat.le_0_l.
  reflexivity.
Qed.

Lemma first_order_pointwise (Gx Gd : P -> R) (step : Z) :
  (0 <= step < Z.of_nat (length (Scheduler.timesteps s)))%Z ->
  let prev :=
    timestep_at (Scheduler.timesteps s)
      (if (step + 1 <? Z.of_nat (length (Scheduler.timesteps s)))%Z then step + 1 else 0) in
  let cur := timestep_at (Scheduler.timesteps s) step in
  DPMSolver.dpm_solver_first_order_update solver
    (mkTensor sh (map Gx l)) (mkTensor sh (map Gd l)) step
  = Ok (mkTensor sh (map (fun p => first_order_value s prev cur (Gx p) (Gd p)) l)).
Proof.
  intros Hstep prev cur. pose proof (timestep_at_within _ Hstep) as Hcur.
  set (i := (if (step + 1 <? Z.of_nat (length (Scheduler.timesteps s)))%Z then step + 1 else 0)%Z)
    in prev.
  assert (Hi : (0 <= i < Z.of_nat (length (Scheduler.timesteps s)))%Z).
  { subst i. destruct (Z.ltb_spec (step + 1) (Z.of_nat (length (Scheduler.timesteps s)))); lia. }
  pose proof (timestep_at_within _ Hi) as Hprev.
  unfold DPMSolver.dpm_solver_first_order_update, DPMSolver.len_timesteps. fold s.
  rewrite select_timestep by exact Hstep. cbn [Py.bind].
  replace (if (step <? Z.of_nat (length (Scheduler.timesteps s)) - 1)%Z then (step + 1)%Z else 0%Z)
    with i.
  2:{ subst i.
      destruct (Z.ltb_spec (step + 1) (Z.of_nat (length (Scheduler.timesteps s))));
        destruct (Z.ltb_spec step (Z.of_nat (length (Scheduler.timesteps s)) - 1)); lia. }
  rewrite select_timestep by exact Hi. cbn [Py.bind].
  fold prev. fold cur.
  rewrite !index_ratios, !index_cumulative, !index_noise by assumption. cbn [Py.bind].
  unfold mul, sub, div, Torch.exp, neg, sub_scalar.
  rewrite !binop_scalars. cbn [Py.bind]. rewrite !unop_single.
  rewrite (binop_single_l _ _ _ l_fills) by apply Nat.le_0_l. cbn [Py.bind].
  rewrite binop_scalars. cbn [Py.bind].
  rewrite (binop_single_l _ _ _ l_fills) by apply Nat.le_0_l. cbn [Py.bind].
  rewrite (binop_pointwise _ _ _ l_fills).
  reflexivity.
Qed.

(** The subscripts of the second-order update at a step [s >= 1]: the
    previous timestep is [timesteps[s + 1]], a zero-dimensional tensor,
    before the last step, and [tensor([0])], the training timestep 0 in a
    tensor of shape [[1]], at the last step. *)
Lemma second_order_timesteps_value (step : Z) :
  (1 <= step < Z.of_nat (length (Scheduler.timesteps s)))%Z ->
  DPMSolver.second_order_timesteps solver step
  = Ok (if (step + 1 <? Z.of_nat (length (Scheduler.timesteps s)))%Z
        then mkIntTensor (ones 0) [timestep_at (Scheduler.timesteps s) (step + 1)]
        else mkIntTensor (ones 1) [0%Z],
        mkIntTensor (ones 0) [timestep_at (Scheduler.timesteps s) step],
        mkIntTensor (ones 0) [timestep_at (Scheduler.timesteps s) (step - 1)]).
Proof using timesteps_fit.
  clear cumulative_length noise_length ratios_length within l_fills.
  intros Hstep. unfold DPMSolver.second_order_timesteps, DPMSolver.len_timesteps. fold s.
  rewrite (select_timestep step) by lia.
  rewrite (select_timestep (step - 1)) by lia.
  destruct (Z.ltb_spec step (Z.of_nat (length (Scheduler.timesteps s)) - 1));
    destruct (Z.ltb_spec (step + 1) (Z.of_nat (length (Scheduler.timesteps s)))); try lia.
  - rewrite (select_timestep (step + 1)) by lia. reflexivity.
  - reflexivity.
Qed.

Lemma second_order_pointwise (Gx Gc Gn : P -> R) (step : Z) :
  (1 <= step < Z.of_nat (length (Scheduler.timesteps s)))%Z ->
  (1 <= length sh)%nat ->
  DPMSolver.estimated_data solver = [mkTensor sh (map Gn l); mkTensor sh (map Gc l)] ->
  let prev :=
    if (step + 1 <? Z.of_nat (length (Scheduler.timesteps s)))%Z
    then timestep_at (Scheduler.timesteps s) (step + 1) else 0%Z in
  let cur := timestep_at (Scheduler.timesteps s) step in
  let next := timestep_at (Scheduler.timesteps s) (step - 1) in
  DPMSolver.multistep_dpm_solver_second_order_update solver (mkTensor sh (map Gx l)) step
  = Ok (mkTensor sh
          (map (fun p => second_order_value s prev cur next (Gx p) (Gc p) (Gn p)) l)).
Proof.
  intros Hstep Hrank Hhist prev cur next.
  assert (Hcur : (0 <= cur < T)%Z) by (apply timestep_at_within; lia).
  assert (Hnext : (0 <= next < T)%Z) by (apply timestep_at_within; lia).
  assert (Hprev : (0 <= prev < T)%Z).
  { subst prev.
    destruct (Z.ltb_spec (step + 1) (Z.of_nat (length (Scheduler.timesteps s))));
      [apply timestep_at_within; lia|lia]. }
  unfold DPMSolver.multistep_dpm_solver_second_order_update.
  rewrite second_order_timesteps_value by exact Hstep. cbn [Py.bind].
  rewrite Hhist, getitem_last_of_two, getitem_first_of_two. cbn [Py.bind].
  fold s.
  set (k := if (step + 1 <? Z.of_nat (length (Scheduler.timesteps s)))%Z then 0%nat else 1%nat).
  assert (Hk : (k <= length sh)%nat) by (subst k; destruct (_ <? _)%Z; lia).
  replace (if (step + 1 <? Z.of_nat (length (Scheduler.timesteps s)))%Z
           then mkIntTensor (ones 0) [timestep_at (Scheduler.timesteps s) (step + 1)]
           else mkIntTensor (ones 1) [0%Z])
    with (mkIntTensor (ones k) [prev])
    by (subst k prev; destruct (_ <? _)%Z; reflexivity).
  fold cur. fold next.
  rewrite !index_ratios, !index_cumulative, !index_noise by assumption. cbn [Py.bind].
  unfold mul, sub, div, Torch.exp, neg, sub_scalar, scalar_mul.
  tensor_steps l_fills Hk.
  reflexivity.
Qed.

End Formulas.

(** ** Construction succeeds or fails on the counts alone *)

Lemma generate_timesteps_succeeds (T N : Z) (dev : Device) :
  (-1 <= N < 2 ^ 63 - 1)%Z -> exists ts, DPMSolver._generate_timesteps T N dev = Ok ts.
Proof.
  intros H. unfold DPMSolver._generate_timesteps, Numpy.linspace.
  destruct (Z.ltb_spec (N + 1) 0); [lia|].
  destruct (Z.ltb_spec int64_max (N + 1)); [int64; lia|].
  eexists. reflexivity.
Qed.

(** With a device, counts that fit and rates that are not negative,
    construction returns a solver. *)
Lemma init_succeeds (N T : Z) (i0 f0 : R) (dev : Device) :
  (0 <= T < 2 ^ 63)%Z -> (-1 <= N < 2 ^ 63 - 1)%Z -> (0 <= i0)%R -> (0 <= f0)%R ->
  exists solver, DPMSolver.init N T i0 f0 dev = Ok solver.
Proof.
  intros HT HN Hi Hf. unfold DPMSolver.init, Scheduler.init. cbn [Torch.device_of Py.bind].
  rewrite (pow_half_nonneg i0 Hi), (pow_half_nonneg f0 Hf).
  rewrite torch_linspace_real by (int64; lia). cbn [Py.bind].
  destruct (generate_timesteps_succeeds T N dev HN) as [ts ->].
  eexists. reflexivity.
Qed.

(** The timesteps of a constructed solver are those of the grid. *)
Lemma constructed_timesteps_are (N T : Z) (i0 f0 : R) (dev : Device) (solver : DPMSolver.t)
    (ts : list Z) :
  DPMSolver.init N T i0 f0 dev = Ok solver ->
  DPMSolver._generate_timesteps T N dev = Ok ts ->
  Scheduler.timesteps (DPMSolver.base solver) = ts.
Proof.
  intros H Hts. apply init_constructed in H. destruct H as [_ _ _ _ _ _ Ht _ _].
  congruence.
Qed.

(** ** The first call *)

Lemma tensor_eta (a : Tensor) : a = mkTensor (shape a) (data a).
Proof. destruct a. reflexivity. Qed.

(** C5. On the first call to a freshly constructed solver, at a step [s]
    of the sampling loop, the result is the first-order update applied to
    the data estimate: each value of the result is
    [(noise_std[prev] / noise_std[cur]) * x
       - cumulative_scale_factor[prev] * (h - 1) * data_estimate]
    with [data_estimate = (x - noise_std[cur] * noise) / cumulative_scale_factor[cur]],
    [h = exp (- (log_snr[prev] - log_snr[cur]))], [cur = timesteps[s]] and
    [prev = timesteps[s + 1]] when [s + 1 < N], [timesteps[0]] otherwise. *)
Theorem first_call_is_first_order_update
    (N T : Z) (i0 f0 : R) (dev : Device) (solver : DPMSolver.t)
    (x noise : Tensor) (step : Z) :
  DPMSolver.init N T i0 f0 dev = Ok solver ->
  timesteps_within T (Scheduler.timesteps (DPMSolver.base solver)) ->
  (0 <= step < N)%Z ->
  well_shaped x -> well_shaped noise -> shape noise = shape x ->
  let s := DPMSolver.base solver in
  let noise_std := at_timestep (Scheduler.noise_std s) in
  let cumulative_scale_factor := at_timestep (Scheduler.cumulative_scale_factors s) in
  let log_snr := at_timestep (Scheduler.signal_to_noise_ratios s) in
  let cur := timestep_at (Scheduler.timesteps s) step in
  let prev := timestep_at (Scheduler.timesteps s) (if (step + 1 <? N)%Z then step + 1 else 0) in
  let h := Rtrigo_def.exp (- (log_snr prev - log_snr cur)) in
  snd (DPMSolver.call solver x noise step)
  = Ok (mkTensor (shape x)
          (map2 (fun xv nv =>
                   let data_estimate := ((xv - noise_std cur * nv) / cumulative_scale_factor cur)%R in
                   (noise_std prev / noise_std cur * xv
                    - cumulative_scale_factor prev * (h - 1) * data_estimate)%R)
                (data x) (data noise))).
Proof.
  intros Hinit Hwithin Hstep Hx Hn Hshape s noise_std cumulative_scale_factor log_snr cur prev h.
  pose proof (init_constructed _ _ _ _ _ _ Hinit) as Hc.
  destruct (constructed_lengths _ _ _ _ _ _ Hc) as (_ & Hlc & Hln & Hlr & Hlt).
  pose proof (proj2 (proj2 (constructed_counts _ _ _ _ _ _ Hc))) as Hfit. fold s in Hlc, Hln, Hlr, Hlt.
  assert (HN : Z.of_nat (length (Scheduler.timesteps s)) = N) by (rewrite Hlt; lia).
  assert (Hlen : length (data x) = length (data noise)).
  { unfold well_shaped in Hx, Hn. rewrite Hx, Hn, Hshape. reflexivity. }
  set (l := combine (data x) (data noise)).
  assert (Hl : length l = numel (shape x)).
  { subst l. rewrite length_combine, <- Hlen, Nat.min_id. exact Hx. }
  rewrite (tensor_eta x), (tensor_eta noise), Hshape.
  rewrite <- (combine_fst (data x) (data noise) Hlen) at 1.
  rewrite <- (combine_snd (data x) (data noise) Hlen) at 2.
  fold l. cbn [shape data].
  unfold DPMSolver.call.
  rewrite (estimate_denoised_data_pointwise solver T Hlc Hln Hlr Hwithin Hfit _ _ _ Hl)
    by (fold s; lia).
  unfold DPMSolver.takes_first_order. cbn [DPMSolver.initial_steps].
  rewrite (constructed_counter _ _ _ _ _ _ Hc). cbn [Z.eqb].
  match goal with
  | |- context [DPMSolver.dpm_solver_first_order_update ?self _ _ _] =>
      rewrite (first_order_pointwise self T Hlc Hln Hlr Hwithin Hfit _ _ _ Hl)
        by (cbn [DPMSolver.base]; fold s; lia)
  end.
  cbn [DPMSolver.base snd]. fold s. rewrite HN. fold cur. fold prev.
  reflexivity.
Qed.

(** A solver for two sampling steps over ten training timesteps, a sample
    of two values and a noise prediction for it. *)
Lemma first_call_is_first_order_update_witness :
  exists solver r,
    DPMSolver.init 2 10 (85 / 100000) (12 / 1000) Devices.cpu = Ok solver /\
    snd (DPMSolver.call solver (mkTensor [2%nat] [1; 2]%R) (mkTensor [2%nat] [0; 1]%R) 0)
    = Ok r.
Proof.
  destruct (init_succeeds 2 10 (85 / 100000) (12 / 1000) Devices.cpu) as [solver H];
    [lia|lia|lra|lra|].
  exists solver. eexists. split; [exact H|].
  apply (first_call_is_first_order_update 2 10 _ _ _ solver _ _ 0%Z H).
  - rewrite (constructed_timesteps_are _ _ _ _ _ _ [9; 4]%Z H) by (vm_compute; reflexivity).
    repeat constructor; lia.
  - lia.
  - reflexivity.
  - reflexivity.
  - reflexivity.
Defined.

(** ** A single value against a tensor of any rank *)

Lemma broadcast_rev_ones_any (k : nat) (r : list nat) :
  Torch.broadcast_rev (ones k) r = Ok (r ++ ones (k - length r)).
Proof.
  revert r. induction k as [|k IH]; intros r.
  - cbn [Nat.sub ones repeat]. rewrite app_nil_r. destruct r; reflexivity.
  - destruct r as [|y r]; [reflexivity|].
    unfold ones. cbn [repeat Torch.broadcast_rev length Nat.sub]. fold (ones k).
    fold (ones (k - length r)). rewrite IH. cbn [Py.bind].
    destruct (Nat.eqb_spec 1 y) as [<-|]; [reflexivity|].
    rewrite Nat.eqb_refl. reflexivity.
Qed.

Lemma broadcast_shapes_ones_any (k : nat) (s : list nat) :
  Torch.broadcast_shapes (ones k) s = Ok (Torch.pad_shape k s).
Proof.
  unfold Torch.broadcast_shapes, Torch.pad_shape. rewrite rev_ones, broadcast_rev_ones_any.
  cbn [Py.bind]. rewrite rev_app_distr, rev_involutive, rev_ones, length_rev. reflexivity.
Qed.

Lemma numel_app (a b : list nat) : Torch.numel (a ++ b) = (Torch.numel a * Torch.numel b)%nat.
Proof.
  unfold Torch.numel. induction a as [|x a IH]; cbn [app fold_right].
  - lia.
  - rewrite IH. lia.
Qed.

Lemma numel_pad_shape (k : nat) (s : list nat) :
  Torch.numel (Torch.pad_shape k s) = Torch.numel s.
Proof.
  unfold Torch.pad_shape. rewrite numel_app. fold (ones (k - length s)).
  rewrite numel_ones. lia.
Qed.

Lemma length_pad_shape (k : nat) (s : list nat) :
  length (Torch.pad_shape k s) = Nat.max k (length s).
Proof. unfold Torch.pad_shape. rewrite length_app, repeat_length. lia. Qed.

Lemma pad_shape_idempotent (k : nat) (s : list nat) :
  Torch.pad_shape (length (Torch.pad_shape k s)) s = Torch.pad_shape k s.
Proof.
  rewrite length_pad_shape. unfold Torch.pad_shape. f_equal. f_equal. lia.
Qed.

Lemma pad_shape_enough (k : nat) (s : list nat) :
  (k <= length s)%nat -> Torch.pad_shape k s = s.
Proof.
  intros H. unfold Torch.pad_shape. replace (k - length s)%nat with 0%nat by lia. reflexivity.
Qed.

(** The value is spread over the tensor, whose shape is padded on the left
    with 1s up to the rank of the value. *)
Lemma binop_scalar_any (f : R -> R -> R) (k : nat) (c : R) (x : Tensor) :
  well_shaped x ->
  Torch.binop f (mkTensor (ones k) [c]) x
  = Ok (mkTensor (Torch.pad_shape k (shape x)) (map (f c) (data x))).
Proof.
  intros Hx. unfold Torch.binop. cbn [shape data].
  rewrite broadcast_shapes_ones_any. cbn [Py.bind].
  rewrite pad_shape_idempotent.
  rewrite pad_shape_ones by (rewrite length_pad_shape; lia).
  rewrite expand_ones, numel_pad_shape.
  rewrite expand_same by (rewrite numel_pad_shape; exact Hx).
  rewrite <- Hx, map2_repeat_l. reflexivity.
Qed.

Lemma map2_maps {A B A' B' C : Type} (f : A' -> B' -> C) (g : A -> A') (h : B -> B')
    (a : list A) (b : list B) :
  Torch.map2 f (map g a) (map h b) = Torch.map2 (fun u v => f (g u) (h v)) a b.
Proof.
  unfold Torch.map2. revert b. induction a as [|u a IH]; intros [|v b]; try reflexivity.
  cbn. f_equal. apply IH.
Qed.

(** ** [add_noise] *)

Section AddNoise.

Import Torch.

Variable s : Scheduler.t.
Variable T : Z.

Hypothesis cumulative_length : length (Scheduler.cumulative_scale_factors s) = Z.to_nat T.
Hypothesis noise_length : length (Scheduler.noise_std s) = Z.to_nat T.
Hypothesis within : timesteps_within T (Scheduler.timesteps s).
Hypothesis timesteps_fit : (Z.of_nat (length (Scheduler.timesteps s)) <= int64_max)%Z.

(** The noised sample at a step of the sampling loop: the two coefficients
    have shape [[1; 1]], so that a sample of fewer than two dimensions
    comes back with two. *)
Lemma add_noise_value (x noise : Tensor) (step : Z) :
  (0 <= step < Z.of_nat (length (Scheduler.timesteps s)))%Z ->
  well_shaped x -> well_shaped noise -> shape noise = shape x ->
  let t := timestep_at (Scheduler.timesteps s) step in
  Scheduler.add_noise s x noise step
  = (s, Ok (mkTensor (pad_shape 2 (shape x))
              (map2 (fun xv nv =>
                       (at_timestep (Scheduler.cumulative_scale_factors s) t * xv
                        + at_timestep (Scheduler.noise_std s) t * nv)%R)
                    (data x) (data noise)))).
Proof.
  intros Hstep Hx Hn Hshape t.
  assert (Ht : (0 <= t < T)%Z).
  { unfold timesteps_within in within. rewrite Forall_forall in within.
    apply within. apply nth_In. lia. }
  unfold Scheduler.add_noise. f_equal.
  rewrite select_in_range by assumption. cbn [Py.bind].
  change (nth (Z.to_nat step) (Scheduler.timesteps s) 0%Z) with t.
  rewrite (index_single (Scheduler.cumulative_scale_factors s))
    by (rewrite cumulative_length; lia).
  cbn [Py.bind].
  rewrite (index_single (Scheduler.noise_std s)) by (rewrite noise_length; lia).
  cbn [Py.bind]. unfold unsqueeze_last. cbn [shape data].
  change ((ones 0 ++ [1%nat]) ++ [1%nat]) with (ones 2).
  fold (at_timestep (Scheduler.cumulative_scale_factors s) t).
  fold (at_timestep (Scheduler.noise_std s) t).
  unfold mul, add.
  rewrite !binop_scalar_any by assumption. cbn [Py.bind]. rewrite Hshape.
  rewrite binop_same_shape.
  - cbn [shape data]. rewrite map2_maps. reflexivity.
  - reflexivity.
  - unfold well_shaped. cbn [shape data]. rewrite length_map, numel_pad_shape. exact Hx.
  - unfold well_shaped. cbn [shape data]. rewrite length_map, numel_pad_shape, <- Hshape.
    exact Hn.
Qed.

End AddNoise.



Lemma call_step_out_of_range (solver : DPMSolver.t) (x noise : Tensor) (step : Z) :
  (step < - Z.of_nat (length (Scheduler.timesteps (DPMSolver.base solver)))
   \/ Z.of_nat (length (Scheduler.timesteps (DPMSolver.base solver))) <= step)%Z ->
  DPMSolver.call solver x noise step
  = (solver, Err (if fits_int64 step then IndexError else ValueError)).
Proof.
  intros H. unfold DPMSolver.call, DPMSolver.estimate_denoised_data.
  rewrite select_out_of_range by exact H. reflexivity.
Qed.

(** The grid of two sampling steps over ten training timesteps:
    [linspace(0, 9, 3)] is [0, 4.5, 9], rounded to [0, 4, 9]. *)
Lemma timesteps_2_of_10 (i0 f0 : R) (dev : Device) (solver : DPMSolver.t) :
  DPMSolver.init 2 10 i0 f0 dev = Ok solver ->
  Scheduler.timesteps (DPMSolver.base solver) = [9; 4]%Z.
Proof.
  intros H. apply (constructed_timesteps_are _ _ _ _ _ _ _ H). vm_compute. reflexivity.
Qed.

(** C7 (amended). For a sample and a noise of one shape with at least two
    dimensions and a step of the sampling loop, [add_noise] returns
    [cumulative_scale_factor[t] * x + noise_std[t] * noise] value by value,
    with [t = timesteps[step]], in a tensor of the shape of the sample, and
    leaves the scheduler as it was. *)
Theorem add_noise_formula
    (N T : Z) (i0 f0 : R) (dev : Device) (solver : DPMSolver.t)
    (x noise : Tensor) (step : Z) :
  DPMSolver.init N T i0 f0 dev = Ok solver ->
  timesteps_within T (Scheduler.timesteps (DPMSolver.base solver)) ->
  (0 <= step < N)%Z ->
  well_shaped x -> well_shaped noise -> shape noise = shape x ->
  (2 <= length (shape x))%nat ->
  let s := DPMSolver.base solver in
  let t := timestep_at (Scheduler.timesteps s) step in
  Scheduler.add_noise s x noise step
  = (s, Ok (mkTensor (shape x)
              (map2 (fun xv nv =>
                       (at_timestep (Scheduler.cumulative_scale_factors s) t * xv
                        + at_timestep (Scheduler.noise_std s) t * nv)%R)
                    (data x) (data noise)))).
Proof.
  intros Hinit Hwithin Hstep Hx Hn Hshape Hrank s t.
  pose proof (init_constructed _ _ _ _ _ _ Hinit) as Hc.
  destruct (constructed_lengths _ _ _ _ _ _ Hc) as (_ & Hlc & Hln & _ & Hlt).
  pose proof (proj2 (proj2 (constructed_counts _ _ _ _ _ _ Hc))) as Hfit.
  fold s in Hlc, Hln, Hlt.
  rewrite (add_noise_value s T Hlc Hln Hwithin Hfit x noise step) by (try assumption; lia).
  rewrite pad_shape_enough by exact Hrank. reflexivity.
Qed.

Lemma add_noise_formula_witness :
  exists solver r,
    DPMSolver.init 2 10 (85 / 100000) (12 / 1000) Devices.cpu = Ok solver /\
    Scheduler.add_noise (DPMSolver.base solver)
      (mkTensor [1; 2]%nat [1; 2]%R) (mkTensor [1; 2]%nat [0; 1]%R) 1
    = (DPMSolver.base solver, Ok r).
Proof.
  destruct (init_succeeds 2 10 (85 / 100000) (12 / 1000) Devices.cpu) as [solver H];
    [lia|lia|lra|lra|].
  exists solver. eexists. split; [exact H|].
  apply (add_noise_formula 2 10 _ _ _ solver _ _ 1%Z H).
  - rewrite (timesteps_2_of_10 _ _ _ _ H). repeat constructor; lia.
  - lia.
  - reflexivity.
  - reflexivity.
  - reflexivity.
  - cbn. lia.
Defined.

(** A sample of one dimension comes back with two: the coefficients of
    [add_noise] are unsqueezed twice. *)
Lemma add_noise_reshapes_vector :
  exists solver r,
    DPMSolver.init 2 10 (85 / 100000) (12 / 1000) Devices.cpu = Ok solver /\
    snd (Scheduler.add_noise (DPMSolver.base solver)
           (mkTensor [2%nat] [1; 2]%R) (mkTensor [2%nat] [0; 1]%R) 0) = Ok r /\
    shape r = [1; 2]%nat /\
    shape r <> shape (mkTensor [2%nat] [1; 2]%R).
Proof.
  destruct (init_succeeds 2 10 (85 / 100000) (12 / 1000) Devices.cpu) as [solver H];
    [lia|lia|lra|lra|].
  pose proof (init_constructed _ _ _ _ _ _ H) as Hc.
  destruct (constructed_lengths _ _ _ _ _ _ Hc) as (_ & Hlc & Hln & _ & Hlt).
  pose proof (proj2 (proj2 (constructed_counts _ _ _ _ _ _ Hc))) as Hfit.
  exists solver. eexists. split; [exact H|]. split.
  - rewrite (add_noise_value (DPMSolver.base solver) 10 Hlc Hln).
    + reflexivity.
    + rewrite (timesteps_2_of_10 _ _ _ _ H). repeat constructor; lia.
    + exact Hfit.
    + rewrite Hlt. lia.
    + reflexivity.
    + reflexivity.
    + reflexivity.
  - cbn. split; [reflexivity|discriminate].
Qed.




(** ** The solver as a state machine *)

Lemma call_cases (self : DPMSolver.t) (x noise : Tensor) (step : Z) :
  call_outcome self x noise step (DPMSolver.call self x noise step).
Proof.
  unfold DPMSolver.call.
  destruct (DPMSolver.estimate_denoised_data self x noise step) as [est|e] eqn:E.
  - fold (appended self est).
    fold (selected_update (appended self est) x est step).
    destruct (selected_update (appended self est) x est step) as [r|e] eqn:U.
    + fold (counted (appended self est)). apply (returned _ _ _ _ est r E U).
    + apply (raised_in_update _ _ _ _ est e E U).
  - apply (raised_before_append _ _ _ _ e E).
Qed.


(** The history after a call that reached the append. *)
Lemma call_history (self : DPMSolver.t) (x noise : Tensor) (step : Z) (est : Tensor) :
  DPMSolver.estimate_denoised_data self x noise step = Ok est ->
  DPMSolver.estimated_data (fst (DPMSolver.call self x noise step))
  = deque_append 2 (DPMSolver.estimated_data self) est.
Proof.
  intros E. destruct (call_cases self x noise step) as [e E'|est' e E' U|est' r E' U];
    cbn [fst]; try congruence.
  - replace est' with est by congruence. reflexivity.
  - replace est' with est by congruence. unfold counted.
    destruct (_ <? _)%Z; reflexivity.
Qed.


Lemma call_base (self : DPMSolver.t) (x noise : Tensor) (step : Z) :
  DPMSolver.base (fst (DPMSolver.call self x noise step)) = DPMSolver.base self.
Proof.
  destruct (call_cases self x noise step) as [e E|est e E U|est r E U]; cbn [fst];
    try reflexivity.
  unfold counted. destruct (_ <? _)%Z; reflexivity.
Qed.

(** The solvers seen by the calls of a run, and their outcomes. *)
Lemma run_cons (self : DPMSolver.t) (x noise : Tensor) (step : Z)
    (calls : list (Tensor * Tensor * Z)) :
  fst (DPMSolver.run self ((x, noise, step) :: calls))
  = (self, snd (DPMSolver.call self x noise step))
      :: fst (DPMSolver.run (fst (DPMSolver.call self x noise step)) calls).
Proof.
  cbn [DPMSolver.run]. destruct (DPMSolver.call self x noise step) as [self' r].
  cbn [fst snd]. destruct (DPMSolver.run self' calls). reflexivity.
Qed.



(** ** A call, step by step, on tensors laid out over a common list *)

Section Calls.

Import Torch.

Variable solver : DPMSolver.t.
Variable T : Z.

Let s : Scheduler.t := DPMSolver.base solver.

Hypothesis cumulative_length : length (Scheduler.cumulative_scale_factors s) = Z.to_nat T.
Hypothesis noise_length : length (Scheduler.noise_std s) = Z.to_nat T.
Hypothesis ratios_length : length (Scheduler.signal_to_noise_ratios s) = Z.to_nat T.
Hypothesis within : timesteps_within T (Scheduler.timesteps s).
Hypothesis timesteps_fit : (Z.of_nat (length (Scheduler.timesteps s)) <= int64_max)%Z.

Variable P : Type.
Variable sh : list nat.
Variable l : list P.
Hypothesis l_fills : length l = numel sh.

Variables Gx Gn : P -> R.
Variable step : Z.

Let cur : Z := timestep_at (Scheduler.timesteps s) step.

Let estimate : Tensor :=
  mkTensor sh (map (fun p => data_estimate_value s cur (Gx p) (Gn p)) l).

(** The first-order call: the estimate enters the history, the counter
    becomes 1. *)
Lemma call_first_order_layout :
  DPMSolver.initial_steps solver = 0%Z ->
  (0 <= step < Z.of_nat (length (Scheduler.timesteps s)))%Z ->
  let prev :=
    timestep_at (Scheduler.timesteps s)
      (if (step + 1 <? Z.of_nat (length (Scheduler.timesteps s)))%Z then step + 1 else 0) in
  DPMSolver.call solver (mkTensor sh (map Gx l)) (mkTensor sh (map Gn l)) step
  = (DPMSolver.mk s (deque_append 2 (DPMSolver.estimated_data solver) estimate) 1,
     Ok (mkTensor sh
           (map (fun p => first_order_value s prev cur (Gx p)
                            (data_estimate_value s cur (Gx p) (Gn p))) l))).
Proof.
  intros Hcount Hstep prev. unfold DPMSolver.call.
  rewrite (estimate_denoised_data_pointwise solver T cumulative_length noise_length
             ratios_length within timesteps_fit _ _ _ l_fills) by exact Hstep.
  fold s. fold cur. fold estimate.
  unfold DPMSolver.takes_first_order. cbn [DPMSolver.initial_steps DPMSolver.base
                                             DPMSolver.estimated_data].
  rewrite Hcount. cbn [Z.eqb Z.ltb Z.compare Z.add].
  unfold estimate at 2.
  match goal with
  | |- context [DPMSolver.dpm_solver_first_order_update ?self _ _ _] =>
      rewrite (first_order_pointwise self T cumulative_length noise_length
                 ratios_length within timesteps_fit _ _ _ l_fills)
        by (cbn [DPMSolver.base]; exact Hstep)
  end.
  reflexivity.
Qed.

Variable Gb : P -> R.
Variable a : Tensor.

(** A later call: the update reads the estimate of this call and the one
    before it. *)
Lemma call_second_order_layout :
  (1 <= DPMSolver.initial_steps solver <= 2)%Z ->
  DPMSolver.estimated_data solver = [a; mkTensor sh (map Gb l)] ->
  (1 <= step < Z.of_nat (length (Scheduler.timesteps s)))%Z ->
  (1 <= length sh)%nat ->
  let prev :=
    if (step + 1 <? Z.of_nat (length (Scheduler.timesteps s)))%Z
    then timestep_at (Scheduler.timesteps s) (step + 1) else 0%Z in
  let next := timestep_at (Scheduler.timesteps s) (step - 1) in
  DPMSolver.call solver (mkTensor sh (map Gx l)) (mkTensor sh (map Gn l)) step
  = (DPMSolver.mk s [mkTensor sh (map Gb l); estimate] 2,
     Ok (mkTensor sh
           (map (fun p => second_order_value s prev cur next (Gx p)
                            (data_estimate_value s cur (Gx p) (Gn p)) (Gb p)) l))).
Proof.
  intros Hcount Hhist Hstep Hrank prev next. unfold DPMSolver.call.
  rewrite (estimate_denoised_data_pointwise solver T cumulative_length noise_length
             ratios_length within timesteps_fit _ _ _ l_fills) by (fold s; lia).
  fold s. fold cur. fold estimate.
  unfold DPMSolver.takes_first_order. cbn [DPMSolver.initial_steps DPMSolver.base
                                             DPMSolver.estimated_data].
  destruct (Z.eqb_spec (DPMSolver.initial_steps solver) 0) as [H0|_]; [lia|].
  rewrite Hhist, deque_append_full.
  unfold estimate at 2.
  match goal with
  | |- context [DPMSolver.multistep_dpm_solver_second_order_update ?self _ _] =>
      rewrite (second_order_pointwise self T cumulative_length noise_length
                 ratios_length within timesteps_fit _ _ _ l_fills Gx _ Gb)
        by (cbn [DPMSolver.base DPMSolver.estimated_data]; first [exact Hstep|exact Hrank|reflexivity])
  end.
  cbn [DPMSolver.base]. fold s. fold cur. fold prev. fold next. fold estimate.
  destruct (Z.ltb_spec (DPMSolver.initial_steps solver) 2).
  - replace (DPMSolver.initial_steps solver + 1)%Z with 2%Z by lia. reflexivity.
  - replace (DPMSolver.initial_steps solver) with 2%Z by lia. reflexivity.
Qed.

End Calls.



(** ** A run of three calls on a solver of two sampling steps *)

Section DemoRun.

Variables (i0 f0 : R) (dev : Device) (solver : DPMSolver.t).
Hypothesis built : DPMSolver.init 2 10 i0 f0 dev = Ok solver.

Let s : Scheduler.t := DPMSolver.base solver.



End DemoRun.


(** A call that raises is not counted: on a solver of two sampling steps,
    a call at the step 2 raises, and the call that follows it finds the
    counter at 0 and takes the first-order update again. *)
Lemma raising_call_is_not_counted :
  exists fresh r,
    DPMSolver.init 2 10 (85 / 100000) (12 / 1000) Devices.cpu = Ok fresh /\
    fst (DPMSolver.run fresh [(demo_x, demo_noise, 2%Z); (demo_x, demo_noise, 0%Z)])
    = [(fresh, Err IndexError); (fresh, Ok r)] /\
    DPMSolver.initial_steps fresh = 0%Z /\
    DPMSolver.takes_first_order fresh = true.
Proof.
  destruct (init_succeeds 2 10 (85 / 100000) (12 / 1000) Devices.cpu) as [fresh H];
    [lia|lia|lra|lra|].
  pose proof (init_constructed _ _ _ _ _ _ H) as Hc.
  destruct (constructed_lengths _ _ _ _ _ _ Hc) as (_ & Hlc & Hln & Hlr & Hlt).
  pose proof (proj2 (proj2 (constructed_counts _ _ _ _ _ _ Hc))) as Hfit.
  pose proof (constructed_counter _ _ _ _ _ _ Hc) as H0.
  assert (Hwithin : timesteps_within 10 (Scheduler.timesteps (DPMSolver.base fresh))).
  { rewrite (timesteps_2_of_10 _ _ _ _ H). repeat constructor; lia. }
  assert (Hfill : length demo_layout = Torch.numel [2%nat]) by reflexivity.
  exists fresh. eexists. split; [exact H|]. split; [|split].
  - rewrite run_cons.
    rewrite (call_step_out_of_range fresh demo_x demo_noise 2) by (rewrite Hlt; lia).
    cbn [fst snd]. change (if fits_int64 2 then IndexError else ValueError) with IndexError.
    f_equal. rewrite run_cons. unfold demo_x, demo_noise.
    rewrite (call_first_order_layout fresh 10 Hlc Hln Hlr Hwithin Hfit _ _ _ Hfill fst snd 0)
      by (try exact H0; rewrite Hlt; lia).
    cbn [fst snd DPMSolver.run]. destruct fresh; reflexivity.
  - exact H0.
  - unfold DPMSolver.takes_first_order. rewrite H0. reflexivity.
Qed.

(** ** The history of estimates *)






(** ** The schedule arrays *)

Section Schedule.

Open Scope R_scope.

Lemma nth_map_within {A B : Type} (f : A -> B) (l : list A) (i : nat) (d : A) (d' : B) :
  (i < length l)%nat -> nth i (map f l) d' = f (nth i l d).
Proof.
  intros H. rewrite (nth_indep (map f l) d' (f d)) by (rewrite length_map; exact H).
  apply map_nth.
Qed.

Lemma nth_map2_within {A B C : Type} (f : A -> B -> C) (a : list A) (b : list B)
    (i : nat) (da : A) (db : B) (dc : C) :
  (i < length a)%nat -> (i < length b)%nat ->
  nth i (Torch.map2 f a b) dc = f (nth i a da) (nth i b db).
Proof.
  unfold Torch.map2. revert b i.
  induction a as [|u a IH]; intros [|v b] i Ha Hb; cbn [length] in *; try lia.
  destruct i as [|i]; [reflexivity|].
  cbn [combine map nth]. apply IH; lia.
Qed.

Lemma cumprod_from_head (acc : R) (l : list R) :
  (0 < length l)%nat -> nth 0 (Torch.cumprod_from acc l) 0 = acc * nth 0 l 0.
Proof. destruct l; cbn; [lia|reflexivity]. Qed.

Lemma cumprod_from_next (acc : R) (l : list R) (i : nat) :
  (S i < length l)%nat ->
  nth (S i) (Torch.cumprod_from acc l) 0 = nth i (Torch.cumprod_from acc l) 0 * nth (S i) l 0.
Proof.
  revert acc i. induction l as [|a l IH]; intros acc i H; [cbn in H; lia|].
  cbn [length] in H. cbn [Torch.cumprod_from].
  destruct i as [|i].
  - cbn [nth]. apply cumprod_from_head. lia.
  - change (nth (S (S i)) (acc * a :: Torch.cumprod_from (acc * a) l) 0)
      with (nth (S i) (Torch.cumprod_from (acc * a) l) 0).
    rewrite IH by lia. reflexivity.
Qed.

(** Each product of the cumulative product is the one before it times the
    next factor. *)
Lemma cumprod_next (l : list R) (i : nat) :
  (S i < length l)%nat ->
  nth (S i) (Torch.cumprod l) 0 = nth i (Torch.cumprod l) 0 * nth (S i) l 0.
Proof.
  destruct l as [|a l]; intros H; [cbn in H; lia|].
  cbn [length] in H. cbn [Torch.cumprod].
  destruct i as [|i].
  - cbn [nth]. apply cumprod_from_head. lia.
  - change (nth (S (S i)) (a :: Torch.cumprod_from a l) 0)
      with (nth (S i) (Torch.cumprod_from a l) 0).
    rewrite cumprod_from_next by lia. reflexivity.
Qed.

Lemma cumprod_head (l : list R) : nth 0 (Torch.cumprod l) 0 = nth 0 l 0.
Proof. destruct l; reflexivity. Qed.

Variable factors : list R.
Hypothesis factors_in_unit : Forall (fun v => 0 < v < 1) factors.

Lemma factor_in_unit (i : nat) : (i < length factors)%nat -> 0 < nth i factors 0 < 1.
Proof.
  intros H. rewrite Forall_forall in factors_in_unit.
  apply factors_in_unit. apply nth_In. exact H.
Qed.

Lemma cumprod_in_unit (i : nat) :
  (i < length factors)%nat -> 0 < nth i (Torch.cumprod factors) 0 < 1.
Proof.
  induction i as [|i IH]; intros H.
  - rewrite cumprod_head. apply factor_in_unit. exact H.
  - rewrite cumprod_next by exact H.
    pose proof (IH ltac:(lia)) as Hp. pose proof (factor_in_unit (S i) H) as Hf.
    split; nra.
Qed.

Lemma cumprod_step_decreases (i : nat) :
  (S i < length factors)%nat ->
  nth (S i) (Torch.cumprod factors) 0 < nth i (Torch.cumprod factors) 0.
Proof.
  intros H. rewrite cumprod_next by exact H.
  pose proof (cumprod_in_unit i ltac:(lia)) as Hp. pose proof (factor_in_unit (S i) H) as Hf.
  nra.
Qed.

Lemma cumprod_decreases (i j : nat) :
  (i < j)%nat -> (j < length factors)%nat ->
  nth j (Torch.cumprod factors) 0 < nth i (Torch.cumprod factors) 0.
Proof.
  intros Hij. induction Hij as [|j Hij IH]; intros Hj.
  - apply cumprod_step_decreases. exact Hj.
  - apply Rlt_trans with (nth j (Torch.cumprod factors) 0).
    + apply cumprod_step_decreases. exact Hj.
    + apply IH. lia.
Qed.

End Schedule.

(** The interpolation points of [torch.linspace] lie between its ends. *)
Lemma torch_linspace_between (a b : R) (steps : Z) (l : list R) :
  (a <= b)%R -> Torch.linspace (real a) (real b) steps = Ok l ->
  Forall (fun v => (a <= v <= b)%R) l.
Proof.
  intros Hab Hl. destruct (torch_linspace_returns _ _ _ _ Hl) as [H _].
  revert Hl. rewrite torch_linspace_real by exact H.
  destruct (Z.eqb_spec steps 1) as [->|Hne]; intros [= <-].
  - constructor; [lra|constructor].
  - rewrite Forall_forall. intros v Hv. apply in_map_iff in Hv.
    destruct Hv as (i & <- & Hi). apply in_seq in Hi.
    assert (Hsteps : (2 <= steps)%Z) by lia.
    assert (HD : (0 < IZR (steps - 1))%R) by (apply IZR_lt; lia).
    assert (Hi0 : (0 <= INR i)%R) by apply pos_INR.
    assert (HiD : (INR i <= IZR (steps - 1))%R).
    { rewrite INR_IZR_INZ. apply IZR_le. lia. }
    assert (Hstep : (0 <= (b - a) / IZR (steps - 1))%R).
    { apply Rmult_le_pos; [lra|]. left. apply Rinv_0_lt_compat. exact HD. }
    assert (Hfull : (IZR (steps - 1) * ((b - a) / IZR (steps - 1)) = b - a)%R)
      by (field; lra).
    split; nra.
Qed.

Section ScheduleOrder.

Open Scope R_scope.

Variable factors : list R.
Hypothesis factors_in_unit : Forall (fun v => 0 < v < 1) factors.

Let cumulative : list R := map R_sqrt.sqrt (Torch.cumprod factors).
Let noise : list R := map (fun p => R_sqrt.sqrt (1 - p)) (Torch.cumprod factors).
Let ratios : list R := Torch.map2 Rminus (map ln cumulative) (map ln noise).

Lemma cumulative_nth (i : nat) :
  (i < length factors)%nat ->
  nth i cumulative 0 = R_sqrt.sqrt (nth i (Torch.cumprod factors) 0).
Proof.
  intros H. unfold cumulative.
  apply (nth_map_within R_sqrt.sqrt (Torch.cumprod factors) i 0 0).
  rewrite cumprod_length. exact H.
Qed.

Lemma noise_nth (i : nat) :
  (i < length factors)%nat ->
  nth i noise 0 = R_sqrt.sqrt (1 - nth i (Torch.cumprod factors) 0).
Proof.
  intros H. unfold noise.
  apply (nth_map_within (fun p => R_sqrt.sqrt (1 - p)) (Torch.cumprod factors) i 0 0).
  rewrite cumprod_length. exact H.
Qed.

Lemma ratios_nth (i : nat) :
  (i < length factors)%nat ->
  nth i ratios 0 = ln (nth i cumulative 0) - ln (nth i noise 0).
Proof.
  intros H. unfold ratios.
  rewrite (nth_map2_within Rminus _ _ i 0 0 0).
  - rewrite (nth_map_within ln cumulative i 0 0), (nth_map_within ln noise i 0 0).
    + reflexivity.
    + unfold noise. rewrite length_map, cumprod_length. exact H.
    + unfold cumulative. rewrite length_map, cumprod_length. exact H.
  - unfold cumulative. rewrite !length_map, cumprod_length. exact H.
  - unfold noise. rewrite !length_map, cumprod_length. exact H.
Qed.

Lemma sqrt_in_unit (p : R) : 0 < p < 1 -> 0 < R_sqrt.sqrt p < 1.
Proof.
  intros [H0 H1]. split.
  - apply sqrt_lt_R0. exact H0.
  - rewrite <- sqrt_1. apply sqrt_lt_1_alt. lra.
Qed.

Lemma schedule_in_unit (i : nat) :
  (i < length factors)%nat ->
  0 < nth i cumulative 0 < 1 /\ 0 < nth i noise 0 < 1.
Proof.
  intros H. pose proof (cumprod_in_unit factors factors_in_unit i H) as Hp.
  rewrite cumulative_nth, noise_nth by exact H.
  split; apply sqrt_in_unit; lra.
Qed.

Lemma schedule_order (i j : nat) :
  (i < j)%nat -> (j < length factors)%nat ->
  nth j cumulative 0 < nth i cumulative 0 /\
  nth i noise 0 < nth j noise 0 /\
  nth j ratios 0 < nth i ratios 0.
Proof.
  intros Hij Hj.
  pose proof (cumprod_in_unit factors factors_in_unit i ltac:(lia)) as Hpi.
  pose proof (cumprod_in_unit factors factors_in_unit j Hj) as Hpj.
  pose proof (cumprod_decreases factors factors_in_unit i j Hij Hj) as Hdec.
  assert (Hc : nth j cumulative 0 < nth i cumulative 0).
  { rewrite !cumulative_nth by lia. apply sqrt_lt_1_alt. lra. }
  assert (Hn : nth i noise 0 < nth j noise 0).
  { rewrite !noise_nth by lia. apply sqrt_lt_1_alt. lra. }
  split; [exact Hc|]. split; [exact Hn|].
  rewrite !ratios_nth by lia.
  destruct (schedule_in_unit i ltac:(lia)) as [Hci Hni].
  destruct (schedule_in_unit j Hj) as [Hcj Hnj].
  pose proof (ln_increasing _ _ (proj1 Hcj) Hc) as Hlc.
  pose proof (ln_increasing _ _ (proj1 Hni) Hn) as Hln.
  lra.
Qed.

End ScheduleOrder.

(** The factors [1 - beta^2] of a schedule whose rates lie in (0, 1). *)
Lemma scale_factors_in_unit (i0 f0 : R) (T : Z) (betas : list R) :
  (0 < i0 < f0)%R -> (f0 < 1)%R ->
  Torch.linspace (Scheduler.pow_half i0) (Scheduler.pow_half f0) T = Ok betas ->
  Forall (fun v => (0 < v < 1)%R) (map (fun b => (1 - b ^ 2)%R) betas).
Proof.
  intros Hrates Hf Hb. rewrite !pow_half_nonneg in Hb by lra.
  assert (Ha : (0 < R_sqrt.sqrt i0)%R) by (apply sqrt_lt_R0; lra).
  assert (Hab : (R_sqrt.sqrt i0 < R_sqrt.sqrt f0)%R) by (apply sqrt_lt_1_alt; lra).
  assert (Hb1 : (R_sqrt.sqrt f0 < 1)%R) by (rewrite <- sqrt_1; apply sqrt_lt_1_alt; lra).
  pose proof (torch_linspace_between _ _ _ _ (Rlt_le _ _ Hab) Hb) as Hbetween.
  rewrite Forall_forall in Hbetween |- *.
  intros v Hv. apply in_map_iff in Hv. destruct Hv as (b & <- & Hin).
  specialize (Hbetween b Hin). split; nra.
Qed.




(** In binary32 the order and the bounds are not strict.  With the rates
    0.9 and 0.99 and six training timesteps, the last cumulative product is
    below half a unit of the last place of 1, so that [1 - product] rounds
    to 1 and the last noise deviation is 1, whether the product is kept in
    binary64 or in binary32. *)
Lemma float32_noise_std_reaches_one :
  let initial_diffusion_rate := 0x1.ccccccccccccdp-1%float in
  let final_diffusion_rate := 0x1.fae147ae147aep-1%float in
  ((0 <? initial_diffusion_rate) && (initial_diffusion_rate <? final_diffusion_rate)
   && (final_diffusion_rate <? 1))%float = true /\
  forall wide : bool,
    let noise_std := Float32.noise_std wide initial_diffusion_rate final_diffusion_rate 6 in
    length noise_std = 6%nat /\
    nth 5 noise_std S754_nan = Float32.one /\
    SFltb (nth 5 noise_std S754_nan) Float32.one = false.
Proof. split; [reflexivity|]. intros [|]; vm_compute; repeat split. Qed.

(** With the default rates, 0.00085 and 0.012, and five thousand training
    timesteps, the noise deviations at the timesteps 3300 and 3301 are one
    binary32 value, and the noise deviation is 1 at the timestep 4097. *)
Lemma float32_noise_std_ties_on_long_schedule :
  let noise_std :=
    Float32.noise_std true 0x1.bda5119ce075fp-11%float 0x1.89374bc6a7efap-7%float 5000 in
  nth 3300 noise_std S754_nan = nth 3301 noise_std S754_nan /\
  nth 4097 noise_std S754_nan = Float32.one.
Proof. vm_compute. split; reflexivity. Qed.

(** ** The second-order update *)

Lemma combine3_first {A B C : Type} (a : list A) (b : list B) (c : list C) :
  length a = length b -> length b = length c ->
  map fst (combine a (combine b c)) = a.
Proof. intros H1 H2. apply combine_fst. rewrite length_combine. lia. Qed.

Lemma combine3_second {A B C : Type} (a : list A) (b : list B) (c : list C) :
  length a = length b -> length b = length c ->
  map (fun p => fst (snd p)) (combine a (combine b c)) = b.
Proof.
  intros H1 H2. rewrite <- (map_map snd fst).
  rewrite combine_snd by (rewrite length_combine; lia).
  apply combine_fst. exact H2.
Qed.

Lemma combine3_third {A B C : Type} (a : list A) (b : list B) (c : list C) :
  length a = length b -> length b = length c ->
  map (fun p => snd (snd p)) (combine a (combine b c)) = c.
Proof.
  intros H1 H2. rewrite <- (map_map snd snd).
  rewrite combine_snd by (rewrite length_combine; lia).
  apply combine_snd. exact H2.
Qed.

(** C1 (amended). In the second-order update at a step [s] with
    [1 <= s < N], the previous timestep is [timesteps[s + 1]] when
    [s + 1 < N]; on the last step it is the training timestep 0
    ([tensor([0])]), not [timesteps[0]].  The coefficients [log_snr],
    [cumulative_scale_factor] and [noise_std] at `prev' are read at that
    timestep: each value of the result is the second-order formula with
    them, on the two estimates of the history. *)
Theorem second_order_previous_timestep
    (N T : Z) (i0 f0 : R) (dev : Device) (fresh : DPMSolver.t)
    (x d_cur d_next : Tensor) (counter step : Z) :
  DPMSolver.init N T i0 f0 dev = Ok fresh ->
  timesteps_within T (Scheduler.timesteps (DPMSolver.base fresh)) ->
  (1 <= step < N)%Z ->
  well_shaped x -> well_shaped d_cur -> well_shaped d_next ->
  shape d_cur = shape x -> shape d_next = shape x ->
  (1 <= length (shape x))%nat ->
  let s := DPMSolver.base fresh in
  let solver := DPMSolver.mk s [d_next; d_cur] counter in
  let cur := timestep_at (Scheduler.timesteps s) step in
  let next := timestep_at (Scheduler.timesteps s) (step - 1) in
  let prev :=
    if (step + 1 <? N)%Z then timestep_at (Scheduler.timesteps s) (step + 1) else 0%Z in
  DPMSolver.second_order_timesteps solver step
  = Ok (if (step + 1 <? N)%Z then mkIntTensor [] [prev] else mkIntTensor [1%nat] [0%Z],
        mkIntTensor [] [cur], mkIntTensor [] [next]) /\
  DPMSolver.multistep_dpm_solver_second_order_update solver x step
  = Ok (mkTensor (shape x)
          (map (fun p => second_order_value s prev cur next (fst p) (fst (snd p)) (snd (snd p)))
               (combine (data x) (combine (data d_cur) (data d_next))))).
Proof.
  intros Hinit Hwithin Hstep Hx Hc Hn Hsc Hsn Hrank s solver cur next prev.
  pose proof (init_constructed _ _ _ _ _ _ Hinit) as Hcon.
  destruct (constructed_lengths _ _ _ _ _ _ Hcon) as (_ & Hlc & Hln & Hlr & Hlt).
  pose proof (proj2 (proj2 (constructed_counts _ _ _ _ _ _ Hcon))) as Hfit.
  fold s in Hlc, Hln, Hlr, Hlt.
  assert (HN : Z.of_nat (length (Scheduler.timesteps s)) = N) by (rewrite Hlt; lia).
  assert (H1 : length (data x) = length (data d_cur)).
  { unfold well_shaped in Hx, Hc. rewrite Hx, Hc, Hsc. reflexivity. }
  assert (H2 : length (data d_cur) = length (data d_next)).
  { unfold well_shaped in Hc, Hn. rewrite Hc, Hn, Hsc, Hsn. reflexivity. }
  set (l := combine (data x) (combine (data d_cur) (data d_next))).
  assert (Hl : length l = Torch.numel (shape x)).
  { subst l. rewrite !length_combine, <- H2, Nat.min_id, <- H1, Nat.min_id. exact Hx. }
  subst solver. split.
  - rewrite second_order_timesteps_value
      by (cbn [DPMSolver.base]; first [exact Hfit | rewrite HN; exact Hstep]).
    cbn [DPMSolver.base]. rewrite HN. fold cur. fold next. subst prev.
    destruct (step + 1 <? N)%Z; reflexivity.
  - rewrite (tensor_eta x) at 1.
    rewrite <- (combine3_first (data x) (data d_cur) (data d_next) H1 H2) at 1. fold l.
    rewrite (second_order_pointwise (DPMSolver.mk s [d_next; d_cur] counter)
               T Hlc Hln Hlr Hwithin Hfit _ _ _ Hl
               fst (fun p => fst (snd p)) (fun p => snd (snd p)) step).
    + cbn [DPMSolver.base]. rewrite HN. reflexivity.
    + cbn [DPMSolver.base]. rewrite HN. exact Hstep.
    + exact Hrank.
    + cbn [DPMSolver.estimated_data]. subst l.
      rewrite combine3_second, combine3_third by assumption.
      rewrite <- Hsn at 1. rewrite <- Hsc.
      rewrite <- (tensor_eta d_next), <- (tensor_eta d_cur). reflexivity.
Qed.

Lemma second_order_previous_timestep_witness :
  exists fresh r,
    DPMSolver.init 2 10 (85 / 100000) (12 / 1000) Devices.cpu = Ok fresh /\
    DPMSolver.multistep_dpm_solver_second_order_update
      (DPMSolver.mk (DPMSolver.base fresh)
         [mkTensor [2%nat] [3; 4]%R; mkTensor [2%nat] [5; 6]%R] 1)
      (mkTensor [2%nat] [1; 2]%R) 1
    = Ok r.
Proof.
  destruct (init_succeeds 2 10 (85 / 100000) (12 / 1000) Devices.cpu) as [fresh H];
    [lia|lia|lra|lra|].
  exists fresh. eexists. split; [exact H|].
  apply (second_order_previous_timestep 2 10 _ _ _ fresh
           (mkTensor [2%nat] [1; 2]%R) (mkTensor [2%nat] [5; 6]%R) (mkTensor [2%nat] [3; 4]%R)
           1%Z 1%Z H).
  - rewrite (timesteps_2_of_10 _ _ _ _ H). repeat constructor; lia.
  - lia.
  - reflexivity.
  - reflexivity.
  - reflexivity.
  - reflexivity.
  - reflexivity.
  - cbn. lia.
Defined.

(** The grid of thirty sampling steps over a thousand training
    timesteps. *)
Lemma timesteps_30_of_1000 (i0 f0 : R) (dev : Device) (solver : DPMSolver.t) :
  DPMSolver.init 30 1000 i0 f0 dev = Ok solver ->
  Scheduler.timesteps (DPMSolver.base solver)
  = [999; 966; 932; 899; 866; 832; 799; 766; 733; 699; 666; 633; 599; 566; 533;
     499; 466; 433; 400; 366; 333; 300; 266; 233; 200; 166; 133; 100; 67; 33]%Z.
Proof.
  intros H. apply (constructed_timesteps_are _ _ _ _ _ _ _ H). vm_compute. reflexivity.
Qed.

(** On the last of thirty steps the second-order update reads its `prev'
    coefficients at the training timestep 0, while [timesteps[0]] is 999,
    where the cumulative scale factor is smaller. *)
Lemma last_step_previous_timestep_is_zero :
  exists fresh prev cur next,
    DPMSolver.init 30 1000 (85 / 100000) (12 / 1000) Devices.cpu = Ok fresh /\
    DPMSolver.second_order_timesteps fresh 29 = Ok (prev, cur, next) /\
    prev = mkIntTensor [1%nat] [0%Z] /\
    timestep_at (Scheduler.timesteps (DPMSolver.base fresh)) 0 = 999%Z /\
    (at_timestep (Scheduler.cumulative_scale_factors (DPMSolver.base fresh)) 999
     < at_timestep (Scheduler.cumulative_scale_factors (DPMSolver.base fresh)) 0)%R.
Proof.
  destruct (init_succeeds 30 1000 (85 / 100000) (12 / 1000) Devices.cpu) as [fresh H];
    [lia|lia|lra|lra|].
  pose proof (timesteps_30_of_1000 _ _ _ _ H) as Hts.
  exists fresh. do 3 eexists. split; [exact H|]. split; [|split; [|split]].
  - unfold DPMSolver.second_order_timesteps, DPMSolver.len_timesteps, Torch.select.
    rewrite Hts. cbn. reflexivity.
  - reflexivity.
  - rewrite Hts. reflexivity.
  - pose proof (init_constructed _ _ _ _ _ _ H) as Hcon.
    destruct Hcon as [_ _ (betas & Hb & Hs) Hc _ _ _ _ _].
    assert (Hunit : Forall (fun v => (0 < v < 1)%R)
                      (Scheduler.scale_factors (DPMSolver.base fresh))).
    { rewrite Hs. apply (scale_factors_in_unit (85 / 100000) (12 / 1000) 1000); [lra|lra|exact Hb]. }
    assert (Hlen : length (Scheduler.scale_factors (DPMSolver.base fresh)) = 1000%nat).
    { rewrite Hs, length_map, (torch_linspace_length _ _ _ _ Hb). reflexivity. }
    unfold at_timestep. rewrite Hc.
    apply (schedule_order _ Hunit); cbn; lia.
Qed.

(** ** The timestep grid *)






(** The comment of [_generate_timesteps]:
    [numpy.linspace(0, 999, 31)[15]] is [499.49999999999994]. *)
Lemma numpy_linspace_0_999_31_at_15 :
  exists grid,
    Numpy.linspace (Numpy.float_of_Z 0) (Numpy.float_of_Z 999) 31 = Ok grid /\
    nth 15 grid 0%float = 0x1.f37ffffffffffp+8%float /\
    Numpy.round_astype_int (nth 15 grid 0%float) = 499%Z.
Proof. eexists. split; [reflexivity|]. split; vm_compute; reflexivity. Qed.




(** So it does with as many sampling steps as training timesteps: the
    grid of three steps over three training timesteps, [0, 2/3, 4/3, 2],
    rounds to [0, 1, 1, 2]. *)
Lemma timesteps_3_of_3_repeat :
  DPMSolver._generate_timesteps 3 3 Devices.cpu = Ok [2; 1; 1]%Z /\
  strictly_descending [2; 1; 1]%Z = false.
Proof. split; [vm_compute; reflexivity|reflexivity]. Qed.

(** ** Construction arguments *)




(** ** Device and precision transfer *)

(** C8. A call to [to] that changes the precision only keeps the device
    and the timestep sequence, item for item, and the hyperparameters;
    each schedule array becomes the stored array with every value rounded
    to the new precision: nothing is computed again from the
    hyperparameters. *)
Theorem to_precision_only_rounds_stored_values
    (cast : DType -> R -> R) (self : Scheduler.t) (dtype : DType) :
  let self' := Scheduler.to cast self None (Some dtype) in
  Scheduler.timesteps self' = Scheduler.timesteps self /\
  Scheduler.device self' = Scheduler.device self /\
  Scheduler.dtype self' = dtype /\
  Scheduler.num_inference_steps self' = Scheduler.num_inference_steps self /\
  Scheduler.num_train_timesteps self' = Scheduler.num_train_timesteps self /\
  Scheduler.initial_diffusion_rate self' = Scheduler.initial_diffusion_rate self /\
  Scheduler.final_diffusion_rate self' = Scheduler.final_diffusion_rate self /\
  Scheduler.scale_factors self' = map (cast dtype) (Scheduler.scale_factors self) /\
  Scheduler.cumulative_scale_factors self'
  = map (cast dtype) (Scheduler.cumulative_scale_factors self) /\
  Scheduler.noise_std self' = map (cast dtype) (Scheduler.noise_std self) /\
  Scheduler.signal_to_noise_ratios self'
  = map (cast dtype) (Scheduler.signal_to_noise_ratios self).
Proof. cbv zeta. repeat split. Qed.

(** * Further properties of the schedule and of the solver *)

(** ** The coefficients of a constructed schedule *)

(** At a training timestep, with rates in (0, 1): the cumulative product
    [p] of the scale factors lies in (0, 1), the cumulative scale factor is
    its square root, the noise deviation the square root of [1 - p], and
    the log-SNR the difference of their logarithms. *)
Lemma constructed_coefficients
    (N T : Z) (i0 f0 : R) (dev : Device) (solver : DPMSolver.t) (t : Z) :
  DPMSolver.init N T i0 f0 dev = Ok solver ->
  (0 < i0 < f0)%R -> (f0 < 1)%R -> (0 <= t < T)%Z ->
  let s := DPMSolver.base solver in
  exists p : R,
    (0 < p < 1)%R /\
    at_timestep (Scheduler.cumulative_scale_factors s) t = R_sqrt.sqrt p /\
    at_timestep (Scheduler.noise_std s) t = R_sqrt.sqrt (1 - p) /\
    at_timestep (Scheduler.signal_to_noise_ratios s) t
    = (ln (R_sqrt.sqrt p) - ln (R_sqrt.sqrt (1 - p)))%R.
Proof.
  intros Hinit Hrates Hf Ht s.
  pose proof (init_constructed _ _ _ _ _ _ Hinit) as Hcon.
  destruct Hcon as [_ _ (betas & Hb & Hs) Hc Hn Hr _ _ _]. fold s in Hs, Hc, Hn, Hr.
  assert (Hunit : Forall (fun v => (0 < v < 1)%R) (Scheduler.scale_factors s)).
  { rewrite Hs. apply (scale_factors_in_unit i0 f0 T); assumption. }
  assert (Hlen : (Z.to_nat t < length (Scheduler.scale_factors s))%nat).
  { rewrite Hs, length_map, (torch_linspace_length _ _ _ _ Hb). lia. }
  exists (nth (Z.to_nat t) (cumprod (Scheduler.scale_factors s)) 0%R).
  split; [apply (cumprod_in_unit _ Hunit); exact Hlen|].
  unfold at_timestep. rewrite Hr, Hc, Hn.
  rewrite ratios_nth by exact Hlen.
  rewrite cumulative_nth, noise_nth by exact Hlen.
  repeat split.
Qed.

(** X1. The schedule is variance preserving: at every training timestep
    the squares of the cumulative scale factor and of the noise deviation
    add up to one. *)
Theorem schedule_preserves_variance
    (N T : Z) (i0 f0 : R) (dev : Device) (solver : DPMSolver.t) (t : Z) :
  DPMSolver.init N T i0 f0 dev = Ok solver ->
  (0 < i0 < f0)%R -> (f0 < 1)%R -> (0 <= t < T)%Z ->
  (at_timestep (Scheduler.cumulative_scale_factors (DPMSolver.base solver)) t ^ 2
   + at_timestep (Scheduler.noise_std (DPMSolver.base solver)) t ^ 2 = 1)%R.
Proof.
  intros Hinit Hrates Hf Ht.
  destruct (constructed_coefficients N T i0 f0 dev solver t Hinit Hrates Hf Ht)
    as (p & Hp & -> & -> & _).
  rewrite <- !Rsqr_pow2, !Rsqr_sqrt by lra. ring.
Qed.

Lemma schedule_preserves_variance_witness :
  exists solver,
    DPMSolver.init 2 10 (85 / 100000) (12 / 1000) Devices.cpu = Ok solver /\
    (at_timestep (Scheduler.cumulative_scale_factors (DPMSolver.base solver)) 4 ^ 2
     + at_timestep (Scheduler.noise_std (DPMSolver.base solver)) 4 ^ 2 = 1)%R.
Proof.
  destruct (init_succeeds 2 10 (85 / 100000) (12 / 1000) Devices.cpu) as [solver H];
    [lia|lia|lra|lra|].
  exists solver. split; [exact H|].
  apply (schedule_preserves_variance 2 10 _ _ _ solver 4%Z H); [lra|lra|lia].
Defined.

(** ** The first-order update re-noises the data estimate *)

Lemma exp_log_snr_difference (cp np cc nc : R) :
  (0 < cp)%R -> (0 < np)%R -> (0 < cc)%R -> (0 < nc)%R ->
  Rtrigo_def.exp (- ((ln cp - ln np) - (ln cc - ln nc))) = ((cc * np) / (cp * nc))%R.
Proof.
  intros Hcp Hnp Hcc Hnc.
  assert (Hnum : (0 < cc * np)%R) by (apply Rmult_lt_0_compat; assumption).
  assert (Hden : (0 < cp * nc)%R) by (apply Rmult_lt_0_compat; assumption).
  rewrite <- (exp_ln ((cc * np) / (cp * nc))).
  - f_equal. unfold Rdiv.
    rewrite ln_mult by (try apply Rinv_0_lt_compat; assumption).
    rewrite ln_Rinv by assumption. rewrite !ln_mult by assumption. ring.
  - apply Rdiv_lt_0_compat; assumption.
Qed.

(** With the data estimate of the call, the first-order formula is the
    data estimate scaled and noised again for the previous timestep. *)
Lemma first_order_value_renoises
    (N T : Z) (i0 f0 : R) (dev : Device) (solver : DPMSolver.t) (prev cur : Z) (x n : R) :
  DPMSolver.init N T i0 f0 dev = Ok solver ->
  (0 < i0 < f0)%R -> (f0 < 1)%R -> (0 <= prev < T)%Z -> (0 <= cur < T)%Z ->
  let s := DPMSolver.base solver in
  first_order_value s prev cur x (data_estimate_value s cur x n)
  = (at_timestep (Scheduler.cumulative_scale_factors s) prev * data_estimate_value s cur x n
     + at_timestep (Scheduler.noise_std s) prev * n)%R.
Proof.
  intros Hinit Hrates Hf Hprev Hcur s.
  destruct (constructed_coefficients N T i0 f0 dev solver prev Hinit Hrates Hf Hprev)
    as (pp & Hpp & Hcp & Hnp & Hrp).
  destruct (constructed_coefficients N T i0 f0 dev solver cur Hinit Hrates Hf Hcur)
    as (pc & Hpc & Hcc & Hnc & Hrc).
  fold s in Hcp, Hnp, Hrp, Hcc, Hnc, Hrc.
  unfold first_order_value, data_estimate_value.
  rewrite Hrp, Hrc, Hcp, Hnp, Hcc, Hnc.
  assert (H1 : (0 < R_sqrt.sqrt pp)%R) by (apply sqrt_lt_R0; lra).
  assert (H2 : (0 < R_sqrt.sqrt (1 - pp))%R) by (apply sqrt_lt_R0; lra).
  assert (H3 : (0 < R_sqrt.sqrt pc)%R) by (apply sqrt_lt_R0; lra).
  assert (H4 : (0 < R_sqrt.sqrt (1 - pc))%R) by (apply sqrt_lt_R0; lra).
  cbv zeta. rewrite exp_log_snr_difference by assumption.
  field. repeat split; lra.
Qed.

(** X2. The first call of a solver with rates in (0, 1) returns the data
    estimate noised again for the previous timestep:
    [cumulative_scale_factor[prev] * data_estimate + noise_std[prev] * noise]
    value by value, with
    [data_estimate = (x - noise_std[cur] * noise) / cumulative_scale_factor[cur]]. *)
Theorem first_call_renoises_data_estimate
    (N T : Z) (i0 f0 : R) (dev : Device) (solver : DPMSolver.t)
    (x noise : Tensor) (step : Z) :
  DPMSolver.init N T i0 f0 dev = Ok solver ->
  (0 < i0 < f0)%R -> (f0 < 1)%R ->
  timesteps_within T (Scheduler.timesteps (DPMSolver.base solver)) ->
  (0 <= step < N)%Z ->
  well_shaped x -> well_shaped noise -> shape noise = shape x ->
  let s := DPMSolver.base solver in
  let cur := timestep_at (Scheduler.timesteps s) step in
  let prev := timestep_at (Scheduler.timesteps s) (if (step + 1 <? N)%Z then step + 1 else 0) in
  snd (DPMSolver.call solver x noise step)
  = Ok (mkTensor (shape x)
          (map2 (fun xv nv =>
                   (at_timestep (Scheduler.cumulative_scale_factors s) prev
                    * ((xv - at_timestep (Scheduler.noise_std s) cur * nv)
                       / at_timestep (Scheduler.cumulative_scale_factors s) cur)
                    + at_timestep (Scheduler.noise_std s) prev * nv)%R)
                (data x) (data noise))).
Proof.
  intros Hinit Hrates Hf Hwithin Hstep Hx Hn Hshape s cur prev.
  pose proof (init_constructed _ _ _ _ _ _ Hinit) as Hc.
  destruct (constructed_lengths _ _ _ _ _ _ Hc) as (_ & Hlc & Hln & Hlr & Hlt).
  pose proof (proj2 (proj2 (constructed_counts _ _ _ _ _ _ Hc))) as Hfit.
  fold s in Hlc, Hln, Hlr, Hlt.
  assert (HN : Z.of_nat (length (Scheduler.timesteps s)) = N) by (rewrite Hlt; lia).
  assert (Hlen : length (data x) = length (data noise)).
  { unfold well_shaped in Hx, Hn. rewrite Hx, Hn, Hshape. reflexivity. }
  assert (Hl : length (combine (data x) (data noise)) = Torch.numel (shape x)).
  { rewrite length_combine, <- Hlen, Nat.min_id. exact Hx. }
  assert (Hcur : (0 <= cur < T)%Z).
  { apply (timestep_at_within solver T Hwithin). fold s. lia. }
  assert (Hprev : (0 <= prev < T)%Z).
  { apply (timestep_at_within solver T Hwithin). fold s.
    destruct (Z.ltb_spec (step + 1) N); lia. }
  rewrite (tensor_eta x) at 1. rewrite (tensor_eta noise), Hshape.
  rewrite <- (combine_fst (data x) (data noise) Hlen) at 1.
  rewrite <- (combine_snd (data x) (data noise) Hlen) at 2.
  rewrite (call_first_order_layout solver T Hlc Hln Hlr Hwithin Hfit _ _ _ Hl fst snd step)
    by (try apply (constructed_counter _ _ _ _ _ _ Hc); fold s; lia).
  cbn [snd]. fold s. rewrite HN. fold cur. fold prev.
  f_equal. f_equal. unfold map2. apply map_ext. intros [xv nv]. cbn [fst snd].
  apply (first_order_value_renoises N T i0 f0 dev solver prev cur xv nv); assumption.
Qed.

Lemma first_call_renoises_data_estimate_witness :
  exists solver r,
    DPMSolver.init 2 10 (85 / 100000) (12 / 1000) Devices.cpu = Ok solver /\
    snd (DPMSolver.call solver (mkTensor [2%nat] [1; 2]%R) (mkTensor [2%nat] [0; 1]%R) 0)
    = Ok r.
Proof.
  destruct (init_succeeds 2 10 (85 / 100000) (12 / 1000) Devices.cpu) as [solver H];
    [lia|lia|lra|lra|].
  exists solver. eexists. split; [exact H|].
  apply (first_call_renoises_data_estimate 2 10 _ _ _ solver _ _ 0%Z H).
  - lra.
  - lra.
  - rewrite (timesteps_2_of_10 _ _ _ _ H). repeat constructor; lia.
  - lia.
  - reflexivity.
  - reflexivity.
  - reflexivity.
Defined.

(** ** A single sampling step *)




(** ** Noising and the data estimate *)



(** ** The scale factors between the two rates *)

Lemma nth_map_seq {A : Type} (f : nat -> A) (n i : nat) (d : A) :
  (i < n)%nat -> nth i (map f (seq 0 n)) d = f i.
Proof.
  intros H. rewrite (nth_map_within f (seq 0 n) i 0%nat d) by (rewrite length_seq; exact H).
  rewrite seq_nth by exact H. reflexivity.
Qed.



(** ** Sizes, and the steps of the sampling loop *)

Lemma init_counts (N T : Z) (i0 f0 : R) (dev : Device) (solver : DPMSolver.t) :
  DPMSolver.init N T i0 f0 dev = Ok solver -> (0 <= T)%Z /\ (-1 <= N)%Z.
Proof.
  intros Hinit.
  destruct (constructed_counts _ _ _ _ _ _ (init_constructed _ _ _ _ _ _ Hinit))
    as (HT & HN & _).
  lia.
Qed.

Lemma steps_spec (s : Scheduler.t) (k : Z) :
  In k (Scheduler.steps s) <-> (0 <= k < Scheduler.num_inference_steps s)%Z.
Proof.
  unfold Scheduler.steps. rewrite in_map_iff. split.
  - intros (i & <- & Hi). apply in_seq in Hi. lia.
  - intros Hk. exists (Z.to_nat k). split; [lia|]. apply in_seq. lia.
Qed.

(** X6. In a constructed solver the four schedule arrays have
    [num_train_timesteps] entries and the timestep sequence has
    [num_inference_steps] entries (none when that number is negative);
    [steps] has as many items, which are exactly the integers of
    [[0, num_inference_steps)], and each of them is a subscript of the
    timestep sequence. *)
Theorem constructed_sizes_and_steps
    (N T : Z) (i0 f0 : R) (dev : Device) (solver : DPMSolver.t) :
  DPMSolver.init N T i0 f0 dev = Ok solver ->
  let s := DPMSolver.base solver in
  Z.of_nat (length (Scheduler.scale_factors s)) = T /\
  Z.of_nat (length (Scheduler.cumulative_scale_factors s)) = T /\
  Z.of_nat (length (Scheduler.noise_std s)) = T /\
  Z.of_nat (length (Scheduler.signal_to_noise_ratios s)) = T /\
  Z.of_nat (length (Scheduler.timesteps s)) = Z.max 0 N /\
  Z.of_nat (length (Scheduler.steps s)) = Z.max 0 N /\
  (forall k, In k (Scheduler.steps s) <-> (0 <= k < N)%Z) /\
  (forall k, In k (Scheduler.steps s) ->
     Torch.select (Scheduler.timesteps s) k
     = Ok (mkIntTensor [] [timestep_at (Scheduler.timesteps s) k])).
Proof.
  intros Hinit s.
  pose proof (init_constructed _ _ _ _ _ _ Hinit) as Hc.
  destruct (constructed_lengths _ _ _ _ _ _ Hc) as (H1 & H2 & H3 & H4 & H5).
  pose proof (proj2 (proj2 (constructed_counts _ _ _ _ _ _ Hc))) as Hfit.
  destruct (init_counts _ _ _ _ _ _ Hinit) as [HT HN].
  pose proof (constructed_steps _ _ _ _ _ _ Hc) as Hsteps.
  fold s in H1, H2, H3, H4, H5, Hsteps.
  split; [lia|]. split; [lia|]. split; [lia|]. split; [lia|]. split; [lia|].
  split; [|split].
  - unfold Scheduler.steps. rewrite length_map, length_seq, Hsteps. lia.
  - intros k. rewrite steps_spec, Hsteps. reflexivity.
  - intros k Hk. apply steps_spec in Hk. rewrite Hsteps in Hk.
    apply select_in_range; [exact Hfit|lia].
Qed.

Lemma constructed_sizes_and_steps_witness :
  exists solver,
    DPMSolver.init 30 1000 (85 / 100000) (12 / 1000) Devices.cpu = Ok solver /\
    Z.of_nat (length (Scheduler.noise_std (DPMSolver.base solver))) = 1000%Z /\
    Z.of_nat (length (Scheduler.steps (DPMSolver.base solver))) = 30%Z /\
    In 29%Z (Scheduler.steps (DPMSolver.base solver)).
Proof.
  destruct (init_succeeds 30 1000 (85 / 100000) (12 / 1000) Devices.cpu) as [solver H];
    [lia|lia|lra|lra|].
  exists solver. split; [exact H|].
  destruct (constructed_sizes_and_steps 30 1000 _ _ _ solver H)
    as (_ & _ & Hn & _ & _ & Hs & Hin & _).
  split; [exact Hn|]. split; [exact Hs|]. apply Hin. lia.
Defined.



(** ** Two calls in a row *)

Lemma estimate_reads_schedule_only (s1 s2 : DPMSolver.t) (x noise : Tensor) (step : Z) :
  DPMSolver.base s1 = DPMSolver.base s2 ->
  DPMSolver.estimate_denoised_data s1 x noise step
  = DPMSolver.estimate_denoised_data s2 x noise step.
Proof. intros H. unfold DPMSolver.estimate_denoised_data. rewrite H. reflexivity. Qed.

(** X8. After two calls in a row whose data estimates are computed, the
    history holds these two estimates, the older first, whatever it held
    before and whether or not the updates themselves returned. *)
Theorem history_after_two_calls
    (self : DPMSolver.t) (x1 n1 x2 n2 : Tensor) (step1 step2 : Z) (e1 e2 : Tensor) :
  length (DPMSolver.estimated_data self) = 2%nat ->
  DPMSolver.estimate_denoised_data self x1 n1 step1 = Ok e1 ->
  DPMSolver.estimate_denoised_data self x2 n2 step2 = Ok e2 ->
  DPMSolver.estimated_data
    (fst (DPMSolver.call (fst (DPMSolver.call self x1 n1 step1)) x2 n2 step2))
  = [e1; e2].
Proof.
  intros Hlen E1 E2.
  assert (E2' : DPMSolver.estimate_denoised_data (fst (DPMSolver.call self x1 n1 step1))
                  x2 n2 step2 = Ok e2).
  { rewrite (estimate_reads_schedule_only _ self) by apply call_base. exact E2. }
  rewrite (call_history _ _ _ _ e2 E2'), (call_history _ _ _ _ e1 E1).
  destruct (DPMSolver.estimated_data self) as [|a [|b [|c h]]]; try discriminate.
  reflexivity.
Qed.

Lemma history_after_two_calls_witness :
  exists solver e1 e2,
    DPMSolver.init 2 10 (85 / 100000) (12 / 1000) Devices.cpu = Ok solver /\
    DPMSolver.estimated_data
      (fst (DPMSolver.call (fst (DPMSolver.call solver demo_x demo_noise 0))
              demo_x demo_noise 1))
    = [e1; e2].
Proof.
  destruct (init_succeeds 2 10 (85 / 100000) (12 / 1000) Devices.cpu) as [solver H];
    [lia|lia|lra|lra|].
  pose proof (init_constructed _ _ _ _ _ _ H) as Hc.
  destruct (constructed_lengths _ _ _ _ _ _ Hc) as (_ & Hlc & Hln & Hlr & Hlt).
  pose proof (proj2 (proj2 (constructed_counts _ _ _ _ _ _ Hc))) as Hfit.
  assert (Hwithin : timesteps_within 10 (Scheduler.timesteps (DPMSolver.base solver))).
  { rewrite (timesteps_2_of_10 _ _ _ _ H). repeat constructor; lia. }
  assert (Hfill : length demo_layout = Torch.numel [2%nat]) by reflexivity.
  exists solver. do 2 eexists. split; [exact H|].
  apply (history_after_two_calls solver demo_x demo_noise demo_x demo_noise 0 1).
  - rewrite (constructed_history _ _ _ _ _ _ Hc). reflexivity.
  - apply (estimate_denoised_data_pointwise solver 10 Hlc Hln Hlr Hwithin Hfit _ _ _ Hfill fst snd 0).
    rewrite Hlt. lia.
  - apply (estimate_denoised_data_pointwise solver 10 Hlc Hln Hlr Hwithin Hfit _ _ _ Hfill fst snd 1).
    rewrite Hlt. lia.
Defined.

(** ** The second-order update at the step 0 *)

Section StepZero.

Import Torch.

Variable solver : DPMSolver.t.
Variable T : Z.

Let s : Scheduler.t := DPMSolver.base solver.

Hypothesis cumulative_length : length (Scheduler.cumulative_scale_factors s) = Z.to_nat T.
Hypothesis noise_length : length (Scheduler.noise_std s) = Z.to_nat T.
Hypothesis ratios_length : length (Scheduler.signal_to_noise_ratios s) = Z.to_nat T.
Hypothesis within : timesteps_within T (Scheduler.timesteps s).
Hypothesis timesteps_fit : (Z.of_nat (length (Scheduler.timesteps s)) <= int64_max)%Z.
Hypothesis two_steps : (2 <= Z.of_nat (length (Scheduler.timesteps s)))%Z.

(** The subscript [step - 1] is [-1] there: the `next' timestep is the last
    of the sequence. *)
Lemma second_order_timesteps_at_zero :
  DPMSolver.second_order_timesteps solver 0
  = Ok (mkIntTensor (ones 0) [timestep_at (Scheduler.timesteps s) 1],
        mkIntTensor (ones 0) [timestep_at (Scheduler.timesteps s) 0],
        mkIntTensor (ones 0)
          [timestep_at (Scheduler.timesteps s)
             (Z.of_nat (length (Scheduler.timesteps s)) - 1)]).
Proof using timesteps_fit two_steps.
  clear cumulative_length noise_length ratios_length within.
  unfold DPMSolver.second_order_timesteps, DPMSolver.len_timesteps. fold s.
  destruct (Z.ltb_spec 0 (Z.of_nat (length (Scheduler.timesteps s)) - 1)); [|lia].
  rewrite (select_in_range _ (0 + 1)) by (try exact timesteps_fit; lia).
  rewrite (select_in_range _ 0) by (try exact timesteps_fit; lia).
  rewrite (select_negative _ (0 - 1)) by (try exact timesteps_fit; lia).
  rewrite select_in_range by (try exact timesteps_fit; lia).
  replace (0 - 1 + Z.of_nat (length (Scheduler.timesteps s)))%Z
    with (Z.of_nat (length (Scheduler.timesteps s)) - 1)%Z by lia.
  reflexivity.
Qed.

Variable P : Type.
Variable sh : list nat.
Variable l : list P.
Hypothesis l_fills : length l = numel sh.

Lemma second_order_pointwise_at_zero (Gx Gc Gn : P -> R) :
  DPMSolver.estimated_data solver = [mkTensor sh (map Gn l); mkTensor sh (map Gc l)] ->
  let prev := timestep_at (Scheduler.timesteps s) 1 in
  let cur := timestep_at (Scheduler.timesteps s) 0 in
  let next :=
    timestep_at (Scheduler.timesteps s) (Z.of_nat (length (Scheduler.timesteps s)) - 1) in
  DPMSolver.multistep_dpm_solver_second_order_update solver (mkTensor sh (map Gx l)) 0
  = Ok (mkTensor sh
          (map (fun p => second_order_value s prev cur next (Gx p) (Gc p) (Gn p)) l)).
Proof.
  intros Hhist prev cur next.
  assert (Hcur : (0 <= cur < T)%Z) by (apply (timestep_at_within solver T within); fold s; lia).
  assert (Hnext : (0 <= next < T)%Z) by (apply (timestep_at_within solver T within); fold s; lia).
  assert (Hprev : (0 <= prev < T)%Z) by (apply (timestep_at_within solver T within); fold s; lia).
  unfold DPMSolver.multistep_dpm_solver_second_order_update.
  rewrite second_order_timesteps_at_zero. cbn [Py.bind].
  rewrite Hhist, getitem_last_of_two, getitem_first_of_two. cbn [Py.bind].
  fold s. fold prev. fold cur. fold next.
  rewrite !(index_single (Scheduler.signal_to_noise_ratios s)) by (rewrite ratios_length; lia).
  rewrite !(index_single (Scheduler.cumulative_scale_factors s))
    by (rewrite cumulative_length; lia).
  rewrite !(index_single (Scheduler.noise_std s)) by (rewrite noise_length; lia).
  cbn [Py.bind].
  unfold mul, sub, div, Torch.exp, neg, sub_scalar, scalar_mul.
  assert (Hk : (0 <= length sh)%nat) by apply Nat.le_0_l.
  tensor_steps l_fills Hk.
  reflexivity.
Qed.

End StepZero.

(** X9. At the step 0 the second-order update wraps around: on a solver of
    at least two sampling steps whose history holds two estimates of the
    shape of the sample, it does not raise; it reads [timesteps[-1]], the
    last timestep of the sequence, as the timestep of the preceding call,
    and returns the second-order formula with it.  This is what a solver
    that has already returned from a call does when a sampling loop is
    started again on it. *)
Theorem second_order_update_at_step_zero
    (N T : Z) (i0 f0 : R) (dev : Device) (fresh : DPMSolver.t)
    (x d_cur d_next : Tensor) (counter : Z) :
  DPMSolver.init N T i0 f0 dev = Ok fresh ->
  timesteps_within T (Scheduler.timesteps (DPMSolver.base fresh)) ->
  (2 <= N)%Z ->
  well_shaped x -> well_shaped d_cur -> well_shaped d_next ->
  shape d_cur = shape x -> shape d_next = shape x ->
  let s := DPMSolver.base fresh in
  let solver := DPMSolver.mk s [d_next; d_cur] counter in
  let prev := timestep_at (Scheduler.timesteps s) 1 in
  let cur := timestep_at (Scheduler.timesteps s) 0 in
  let next := timestep_at (Scheduler.timesteps s) (N - 1) in
  DPMSolver.second_order_timesteps solver 0
  = Ok (mkIntTensor [] [prev], mkIntTensor [] [cur], mkIntTensor [] [next]) /\
  DPMSolver.multistep_dpm_solver_second_order_update solver x 0
  = Ok (mkTensor (shape x)
          (map (fun p => second_order_value s prev cur next (fst p) (fst (snd p)) (snd (snd p)))
               (combine (data x) (combine (data d_cur) (data d_next))))).
Proof.
  intros Hinit Hwithin HN Hx Hc Hn Hsc Hsn s solver prev cur next.
  pose proof (init_constructed _ _ _ _ _ _ Hinit) as Hcon.
  destruct (constructed_lengths _ _ _ _ _ _ Hcon) as (_ & Hlc & Hln & Hlr & Hlt).
  pose proof (proj2 (proj2 (constructed_counts _ _ _ _ _ _ Hcon))) as Hfit.
  fold s in Hlc, Hln, Hlr, Hlt, Hfit.
  assert (Hlen : Z.of_nat (length (Scheduler.timesteps s)) = N) by (rewrite Hlt; lia).
  assert (Htwo : (2 <= Z.of_nat (length (Scheduler.timesteps s)))%Z) by lia.
  assert (H1 : length (data x) = length (data d_cur)).
  { unfold well_shaped in Hx, Hc. rewrite Hx, Hc, Hsc. reflexivity. }
  assert (H2 : length (data d_cur) = length (data d_next)).
  { unfold well_shaped in Hc, Hn. rewrite Hc, Hn, Hsc, Hsn. reflexivity. }
  set (l := combine (data x) (combine (data d_cur) (data d_next))).
  assert (Hl : length l = Torch.numel (shape x)).
  { subst l. rewrite !length_combine, <- H2, Nat.min_id, <- H1, Nat.min_id. exact Hx. }
  subst solver. split.
  - rewrite (second_order_timesteps_at_zero (DPMSolver.mk s [d_next; d_cur] counter) Hfit Htwo).
    cbn [DPMSolver.base]. rewrite Hlen. reflexivity.
  - rewrite (tensor_eta x) at 1.
    rewrite <- (combine3_first (data x) (data d_cur) (data d_next) H1 H2) at 1. fold l.
    rewrite (second_order_pointwise_at_zero (DPMSolver.mk s [d_next; d_cur] counter)
               T Hlc Hln Hlr Hwithin Hfit Htwo _ _ _ Hl
               fst (fun p => fst (snd p)) (fun p => snd (snd p))).
    + cbn [DPMSolver.base]. rewrite Hlen. reflexivity.
    + cbn [DPMSolver.estimated_data]. subst l.
      rewrite combine3_second, combine3_third by assumption.
      rewrite <- Hsn at 1. rewrite <- Hsc.
      rewrite <- (tensor_eta d_next), <- (tensor_eta d_cur). reflexivity.
Qed.

Lemma second_order_update_at_step_zero_witness :
  exists fresh r,
    DPMSolver.init 30 1000 (85 / 100000) (12 / 1000) Devices.cpu = Ok fresh /\
    DPMSolver.second_order_timesteps
      (DPMSolver.mk (DPMSolver.base fresh) [demo_noise; demo_x] 2) 0
    = Ok (mkIntTensor [] [966%Z], mkIntTensor [] [999%Z], mkIntTensor [] [33%Z]) /\
    DPMSolver.multistep_dpm_solver_second_order_update
      (DPMSolver.mk (DPMSolver.base fresh) [demo_noise; demo_x] 2) demo_x 0
    = Ok r.
Proof.
  destruct (init_succeeds 30 1000 (85 / 100000) (12 / 1000) Devices.cpu) as [fresh H];
    [lia|lia|lra|lra|].
  pose proof (timesteps_30_of_1000 _ _ _ _ H) as Hts.
  exists fresh. eexists. split; [exact H|].
  destruct (second_order_update_at_step_zero 30 1000 _ _ _ fresh demo_x demo_x demo_noise 2 H)
    as [Hsteps Hupdate].
  - rewrite Hts. repeat constructor; lia.
  - lia.
  - reflexivity.
  - reflexivity.
  - reflexivity.
  - reflexivity.
  - reflexivity.
  - split; [|exact Hupdate].
    rewrite Hsteps, Hts. reflexivity.
Defined.

(** ** Where sampling starts *)

(** With at least one sampling step, the first timestep is the rounding of
    the end of the grid, which numpy writes over the last grid value. *)
Lemma generate_timesteps_head (T N : Z) (dev : Device) (ts : list Z) :
  (1 <= N)%Z ->
  DPMSolver._generate_timesteps T N dev = Ok ts ->
  nth 0 ts 0%Z = Numpy.round_astype_int (Numpy.float_of_Z (T - 1)).
Proof.
  intros HN. unfold DPMSolver._generate_timesteps, Numpy.linspace.
  destruct (Z.ltb_spec (N + 1) 0); [lia|].
  destruct (Z.ltb_spec int64_max (N + 1)); [discriminate|]. cbn [Py.bind].
  destruct (Z.ltb_spec 1 (N + 1)); [|lia].
  intros [= <-].
  match goal with
  | |- context [removelast ?y ++ _] => set (body := removelast y)
  end.
  assert (Hbody : (1 <= length body)%nat).
  { subst body. rewrite removelast_firstn_len, length_firstn, length_map, arange_length. lia. }
  rewrite map_app. cbn [map].
  destruct (map Numpy.round_astype_int body) as [|r rest] eqn:E.
  - apply (f_equal (@length Z)) in E. rewrite length_map in E. cbn in E. lia.
  - cbn [app tl]. rewrite rev_app_distr. reflexivity.
Qed.

(** The integers below a thousand are binary64 values that round to
    themselves. *)
Lemma small_integers_round_to_themselves :
  forallb (fun k => (Numpy.round_astype_int (Numpy.float_of_Z (Z.of_nat k)) =? Z.of_nat k)%Z)
          (seq 0 1000) = true.
Proof. vm_compute. reflexivity. Qed.

(** X10. Whatever the number of sampling steps, as long as there is one,
    the timestep sequence starts at the last training timestep,
    [num_train_timesteps - 1] (shown for up to a thousand training
    timesteps). *)
Theorem sampling_starts_at_last_training_timestep
    (T N : Z) (dev : Device) (ts : list Z) :
  (1 <= N)%Z -> (1 <= T <= 1000)%Z ->
  DPMSolver._generate_timesteps T N dev = Ok ts ->
  timestep_at ts 0 = (T - 1)%Z.
Proof.
  intros HN HT Hts. unfold timestep_at. cbn [Z.to_nat].
  rewrite (generate_timesteps_head T N dev ts HN Hts).
  pose proof small_integers_round_to_themselves as Hall.
  rewrite forallb_forall in Hall.
  specialize (Hall (Z.to_nat (T - 1))).
  rewrite Z2Nat.id in Hall by lia.
  apply Z.eqb_eq. apply Hall. apply in_seq. lia.
Qed.

Lemma sampling_starts_at_last_training_timestep_witness :
  exists ts,
    DPMSolver._generate_timesteps 1000 7 Devices.cpu = Ok ts /\ timestep_at ts 0 = 999%Z.
Proof.
  destruct (generate_timesteps_succeeds 1000 7 Devices.cpu) as [ts Hts]; [lia|].
  exists ts. split; [exact Hts|].
  apply (sampling_starts_at_last_training_timestep 1000 7 Devices.cpu ts); [lia|lia|exact Hts].
Defined.

(** ** The second call *)

Lemma list_as_layout {A : Type} (l : list A) (n : nat) (d : A) :
  length l = n -> l = map (fun i => nth i l d) (seq 0 n).
Proof.
  intros H. apply (nth_ext _ _ d d).
  - rewrite length_map, length_seq. exact H.
  - intros i Hi. rewrite nth_map_seq by lia. reflexivity.
Qed.

(** X11. The second call of a solver, made at a step [s1 >= 1] after a
    first call at any step [s0], returns the second-order formula in which
    the current estimate is the one of the second call and the other
    estimate is the one of the first call, computed at [timesteps[s0]],
    while the `next' log-SNR is read at [timesteps[s1 - 1]], whether or not
    [s0] is [s1 - 1]. *)
Theorem second_call_uses_both_estimates
    (N T : Z) (i0 f0 : R) (dev : Device) (fresh : DPMSolver.t)
    (x0 n0 x1 n1 : Tensor) (sh : list nat) (step0 step1 : Z) :
  DPMSolver.init N T i0 f0 dev = Ok fresh ->
  timesteps_within T (Scheduler.timesteps (DPMSolver.base fresh)) ->
  (0 <= step0 < N)%Z -> (1 <= step1 < N)%Z ->
  well_shaped x0 -> well_shaped n0 -> well_shaped x1 -> well_shaped n1 ->
  shape x0 = sh -> shape n0 = sh -> shape x1 = sh -> shape n1 = sh ->
  (1 <= length sh)%nat ->
  let s := DPMSolver.base fresh in
  let t0 := timestep_at (Scheduler.timesteps s) step0 in
  let cur := timestep_at (Scheduler.timesteps s) step1 in
  let next := timestep_at (Scheduler.timesteps s) (step1 - 1) in
  let prev :=
    if (step1 + 1 <? N)%Z then timestep_at (Scheduler.timesteps s) (step1 + 1) else 0%Z in
  exists r,
    snd (DPMSolver.call (fst (DPMSolver.call fresh x0 n0 step0)) x1 n1 step1) = Ok r /\
    shape r = sh /\
    forall i, (i < numel sh)%nat ->
      nth i (data r) 0%R
      = second_order_value s prev cur next (nth i (data x1) 0%R)
          (data_estimate_value s cur (nth i (data x1) 0%R) (nth i (data n1) 0%R))
          (data_estimate_value s t0 (nth i (data x0) 0%R) (nth i (data n0) 0%R)).
Proof.
  intros Hinit Hwithin Hs0 Hs1 Hx0 Hn0 Hx1 Hn1 Sx0 Sn0 Sx1 Sn1 Hrank s t0 cur next prev.
  destruct x0 as [? dx0], n0 as [? dn0], x1 as [? dx1], n1 as [? dn1].
  unfold well_shaped in Hx0, Hn0, Hx1, Hn1. cbn [shape data] in *. subst.
  pose proof (init_constructed _ _ _ _ _ _ Hinit) as Hc.
  destruct (constructed_lengths _ _ _ _ _ _ Hc) as (_ & Hlc & Hln & Hlr & Hlt).
  pose proof (proj2 (proj2 (constructed_counts _ _ _ _ _ _ Hc))) as Hfit.
  fold s in Hlc, Hln, Hlr, Hlt.
  assert (HN : Z.of_nat (length (Scheduler.timesteps s)) = N) by (rewrite Hlt; lia).
  assert (Hfill : length (seq 0 (numel sh)) = numel sh) by apply length_seq.
  assert (Elay : forall l : list R, length l = numel sh ->
            mkTensor sh l = mkTensor sh (map (fun i => nth i l 0%R) (seq 0 (numel sh)))).
  { intros l Hl. f_equal. apply list_as_layout. exact Hl. }
  rewrite (Elay dx0 Hx0), (Elay dn0 Hn0), (Elay dx1 Hx1), (Elay dn1 Hn1).
  rewrite (call_first_order_layout fresh T Hlc Hln Hlr Hwithin Hfit _ _ _ Hfill _ _ step0)
    by (try apply (constructed_counter _ _ _ _ _ _ Hc); fold s; lia).
  cbn [fst]. rewrite (constructed_history _ _ _ _ _ _ Hc), deque_append_full. fold s. fold t0.
  match goal with
  | |- context [DPMSolver.call ?self _ _ _] =>
      rewrite (call_second_order_layout self T Hlc Hln Hlr Hwithin Hfit _ _ _ Hfill _ _ step1
                 (fun i => data_estimate_value s t0 (nth i dx0 0%R) (nth i dn0 0%R)) Torch.empty)
        by (cbn [DPMSolver.initial_steps DPMSolver.base DPMSolver.estimated_data];
            first [reflexivity | fold s; lia | lia | exact Hrank])
  end.
  cbn [snd DPMSolver.base]. fold s. rewrite HN. fold cur. fold next. fold prev.
  eexists. split; [reflexivity|]. split; [reflexivity|].
  intros i Hi. cbn [data]. rewrite nth_map_seq by exact Hi. reflexivity.
Qed.

Lemma second_call_uses_both_estimates_witness :
  exists fresh r,
    DPMSolver.init 2 10 (85 / 100000) (12 / 1000) Devices.cpu = Ok fresh /\
    snd (DPMSolver.call (fst (DPMSolver.call fresh demo_x demo_noise 0)) demo_x demo_noise 1)
    = Ok r /\
    shape r = [2%nat].
Proof.
  destruct (init_succeeds 2 10 (85 / 100000) (12 / 1000) Devices.cpu) as [fresh H];
    [lia|lia|lra|lra|].
  exists fresh.
  destruct (second_call_uses_both_estimates 2 10 _ _ _ fresh
              demo_x demo_noise demo_x demo_noise [2%nat] 0 1 H)
    as (r & Hr & Hshape & _).
  - rewrite (timesteps_2_of_10 _ _ _ _ H). repeat constructor; lia.
  - lia.
  - lia.
  - reflexivity.
  - reflexivity.
  - reflexivity.
  - reflexivity.
  - reflexivity.
  - reflexivity.
  - reflexivity.
  - reflexivity.
  - cbn. lia.
  - exists r. split; [exact H|]. split; assumption.
Defined.

(** ** Equal estimates *)






(** ** What [to] and the step calls leave untouched *)

(** X13. Whatever its arguments, [to] keeps the timestep sequence, the
    hyperparameters and the number of entries of every schedule array;
    without a precision it keeps every array value, so that [add_noise]
    returns the same after a move to another device; and a second
    conversion rounds the values already rounded by the first, not the
    values the scheduler was built with. *)
Theorem to_keeps_timesteps_and_sizes
    (cast : DType -> R -> R) (self : Scheduler.t)
    (device device' : option Device) (dtype : option DType) (d1 d2 : DType) :
  let self' := Scheduler.to cast self device dtype in
  (Scheduler.timesteps self' = Scheduler.timesteps self /\
   Scheduler.num_inference_steps self' = Scheduler.num_inference_steps self /\
   Scheduler.num_train_timesteps self' = Scheduler.num_train_timesteps self /\
   Scheduler.initial_diffusion_rate self' = Scheduler.initial_diffusion_rate self /\
   Scheduler.final_diffusion_rate self' = Scheduler.final_diffusion_rate self) /\
  (length (Scheduler.scale_factors self') = length (Scheduler.scale_factors self) /\
   length (Scheduler.cumulative_scale_factors self')
   = length (Scheduler.cumulative_scale_factors self) /\
   length (Scheduler.noise_std self') = length (Scheduler.noise_std self) /\
   length (Scheduler.signal_to_noise_ratios self')
   = length (Scheduler.signal_to_noise_ratios self)) /\
  (forall x noise step,
      snd (Scheduler.add_noise (Scheduler.to cast self device None) x noise step)
      = snd (Scheduler.add_noise self x noise step)) /\
  (let twice := Scheduler.to cast (Scheduler.to cast self device (Some d1)) device' (Some d2) in
   Scheduler.scale_factors twice
   = map (fun v => cast d2 (cast d1 v)) (Scheduler.scale_factors self) /\
   Scheduler.cumulative_scale_factors twice
   = map (fun v => cast d2 (cast d1 v)) (Scheduler.cumulative_scale_factors self) /\
   Scheduler.noise_std twice = map (fun v => cast d2 (cast d1 v)) (Scheduler.noise_std self) /\
   Scheduler.signal_to_noise_ratios twice
   = map (fun v => cast d2 (cast d1 v)) (Scheduler.signal_to_noise_ratios self)).
Proof.
  cbv zeta. split; [|split; [|split]].
  - destruct device, dtype; cbn; repeat split.
  - destruct device, dtype; cbn; rewrite ?length_map; repeat split.
  - intros x noise step. destruct device; reflexivity.
  - destruct device, device'; cbn; rewrite !map_map; repeat split.
Qed.

Lemma run_keeps_schedule (self : DPMSolver.t) (calls : list (Tensor * Tensor * Z)) :
  Forall (fun sr => DPMSolver.base (fst sr) = DPMSolver.base self)
         (fst (DPMSolver.run self calls)) /\
  DPMSolver.base (snd (DPMSolver.run self calls)) = DPMSolver.base self.
Proof.
  revert self. induction calls as [|[[x noise] step] calls IH]; intros self.
  - split; [constructor|reflexivity].
  - rewrite run_cons.
    destruct (IH (fst (DPMSolver.call self x noise step))) as [Hall Hfinal].
    rewrite call_base in Hall, Hfinal.
    split; [constructor; [reflexivity|exact Hall]|].
    cbn [DPMSolver.run]. destruct (DPMSolver.call self x noise step) as [self' r].
    cbn [fst] in Hfinal. destruct (DPMSolver.run self' calls). exact Hfinal.
Qed.

(** X14. Step calls never write to the schedule: in any run of calls,
    returning or raising, every call sees the scheduler the run started
    with and the run leaves it as it was; so the data estimate of given
    inputs is the same at every point of the run. *)
Theorem run_never_changes_schedule
    (self : DPMSolver.t) (calls : list (Tensor * Tensor * Z)) :
  Forall (fun sr => DPMSolver.base (fst sr) = DPMSolver.base self)
         (fst (DPMSolver.run self calls)) /\
  DPMSolver.base (snd (DPMSolver.run self calls)) = DPMSolver.base self /\
  (forall x noise step,
      DPMSolver.estimate_denoised_data (snd (DPMSolver.run self calls)) x noise step
      = DPMSolver.estimate_denoised_data self x noise step).
Proof.
  destruct (run_keeps_schedule self calls) as [Hall Hfinal].
  split; [exact Hall|]. split; [exact Hfinal|].
  intros x noise step. apply estimate_reads_schedule_only. exact Hfinal.
Qed.

(** ** Shapes that do not broadcast *)

(** X15. When the shapes of the sample and of the noise cannot be
    broadcast together, the step call raises [RuntimeError] while it
    computes the data estimate: the history and the counter of the solver
    are left as they were.  [add_noise] raises the same error on such
    tensors of at least two dimensions. *)
Theorem incompatible_shapes_raise_before_append
    (N T : Z) (i0 f0 : R) (dev : Device) (fresh : DPMSolver.t)
    (history : list Tensor) (counter : Z) (x noise : Tensor) (step : Z) :
  DPMSolver.init N T i0 f0 dev = Ok fresh ->
  timesteps_within T (Scheduler.timesteps (DPMSolver.base fresh)) ->
  (0 <= step < N)%Z ->
  well_shaped x -> well_shaped noise ->
  broadcast_shapes (shape x) (shape noise) = Err RuntimeError ->
  let solver := DPMSolver.mk (DPMSolver.base fresh) history counter in
  DPMSolver.call solver x noise step = (solver, Err RuntimeError) /\
  ((2 <= length (shape x))%nat -> (2 <= length (shape noise))%nat ->
   Scheduler.add_noise (DPMSolver.base fresh) x noise step
   = (DPMSolver.base fresh, Err RuntimeError)).
Proof.
  intros Hinit Hwithin Hstep Hx Hn Hbad solver.
  pose proof (init_constructed _ _ _ _ _ _ Hinit) as Hc.
  destruct (constructed_lengths _ _ _ _ _ _ Hc) as (_ & Hlc & Hln & _ & Hlt).
  pose proof (proj2 (proj2 (constructed_counts _ _ _ _ _ _ Hc))) as Hfit.
  assert (Hsteps : (0 <= step < Z.of_nat (length (Scheduler.timesteps (DPMSolver.base fresh))))%Z)
    by (rewrite Hlt; lia).
  assert (Ht : (0 <= timestep_at (Scheduler.timesteps (DPMSolver.base fresh)) step < T)%Z).
  { unfold timesteps_within in Hwithin. rewrite Forall_forall in Hwithin.
    apply Hwithin. apply nth_In. lia. }
  split.
  - unfold DPMSolver.call, DPMSolver.estimate_denoised_data. subst solver. cbn [DPMSolver.base].
    rewrite select_in_range by assumption. cbn [Py.bind].
    fold (timestep_at (Scheduler.timesteps (DPMSolver.base fresh)) step).
    rewrite !index_single by (rewrite ?Hlc, ?Hln; lia). cbn [Py.bind].
    unfold Torch.mul. rewrite binop_scalar_l by (try apply Nat.le_0_l; exact Hn).
    cbn [Py.bind]. unfold Torch.sub, Torch.binop. cbn [shape]. rewrite Hbad. reflexivity.
  - intros Hrx Hrn. unfold Scheduler.add_noise. f_equal.
    rewrite select_in_range by assumption. cbn [Py.bind].
    fold (timestep_at (Scheduler.timesteps (DPMSolver.base fresh)) step).
    rewrite !index_single by (rewrite ?Hlc, ?Hln; lia). cbn [Py.bind].
    unfold Torch.unsqueeze_last. cbn [shape data].
    change ((ones 0 ++ [1%nat]) ++ [1%nat]) with (ones 2).
    unfold Torch.mul. rewrite !binop_scalar_any by assumption. cbn [Py.bind].
    rewrite !pad_shape_enough by assumption.
    unfold Torch.add, Torch.binop. cbn [shape]. rewrite Hbad. reflexivity.
Qed.

Lemma incompatible_shapes_raise_before_append_witness :
  exists fresh,
    DPMSolver.init 2 10 (85 / 100000) (12 / 1000) Devices.cpu = Ok fresh /\
    DPMSolver.call (DPMSolver.mk (DPMSolver.base fresh) [Torch.empty; Torch.empty] 0)
      (mkTensor [1; 2]%nat [1; 2]%R) (mkTensor [1; 3]%nat [0; 1; 2]%R) 0
    = (DPMSolver.mk (DPMSolver.base fresh) [Torch.empty; Torch.empty] 0, Err RuntimeError).
Proof.
  destruct (init_succeeds 2 10 (85 / 100000) (12 / 1000) Devices.cpu) as [fresh H];
    [lia|lia|lra|lra|].
  exists fresh. split; [exact H|].
  apply (incompatible_shapes_raise_before_append 2 10 _ _ _ fresh
           [Torch.empty; Torch.empty] 0
           (mkTensor [1; 2]%nat [1; 2]%R) (mkTensor [1; 3]%nat [0; 1; 2]%R) 0 H).
  - rewrite (timesteps_2_of_10 _ _ _ _ H). repeat constructor; lia.
  - lia.
  - reflexivity.
  - reflexivity.
  - reflexivity.
Defined.
